(** * Stack, queue, sorting and searching: a shallow embedding

    The development follows the two programs of the repository:

    - [stack_queue.cpp]: the array-backed [Stack<T>] and the linked
      [Queue<T>];
    - [sorting_searching.java]: five in-place sorts and two searches on
      [int[]].

    Console output ([cout], [System.out]) is not part of the model, except
    for what [display] writes.  Memory is assumed to be available: [new]
    only fails on a negative array length. *)

From stdpp Require Import base numbers option list sorting strings gmap.

Open Scope Z_scope.

(** ** The C++ side: [int], exceptions and undefined behaviour *)

Definition INT_MAX : Z := 2147483647.
Definition INT_MIN : Z := -2147483648.

(** [int] is a 32-bit signed integer; an arithmetic result outside of
    its range is undefined behaviour. *)
Definition in_int (z : Z) : bool := (INT_MIN <=? z) && (z <=? INT_MAX).

(** The exceptions the program can raise: [std::runtime_error] thrown by
    the containers (the spec's "Underflow"), and the
    [std::bad_array_new_length] of [new T[n]] with [n < 0]. *)
Inductive exn : Type :=
  | runtime_error (what : string)
  | bad_array_new_length.

(** Outcome of a member function on an object of state [S]: a normal
    return with the new state, an exception with the state the object has
    when it is thrown, or undefined behaviour. *)
Inductive outcome (S A : Type) : Type :=
  | Ok (a : A) (s : S)
  | Throw (e : exn) (s : S)
  | UB.
Arguments Ok {S A} a s.
Arguments Throw {S A} e s.
Arguments UB {S A}.

Definition obind {S A B} (o : outcome S A) (k : A → S → outcome S B)
  : outcome S B :=
  match o with
  | Ok a s => k a s
  | Throw e s => Throw e s
  | UB => UB
  end.

(** ** Stack<T> *)

Module Stack.
Section stack.
Context {T : Type}.

(** A cell of [new T[n]] holds no value until it is assigned. *)
Record Stack : Type := mkStack {
  arr : list (option T);
  topIndex : Z;
  capacity : Z
}.

(** [new T[n]] *)
Definition new_array (n : Z) : exn + list (option T) :=
  if n <? 0 then inl bad_array_new_length
  else inr (replicate (Z.to_nat n) None).

(** [a[i]] as an rvalue: [None] is an access out of bounds or to a cell
    never assigned. *)
Definition cell_read (a : list (option T)) (i : Z) : option T :=
  if i <? 0 then None else mjoin (a !! Z.to_nat i).

(** [a[i] = v]: [None] is an access out of bounds. *)
Definition cell_write (a : list (option T)) (i : Z) (v : T)
  : option (list (option T)) :=
  if (0 <=? i) && (i <? Z.of_nat (length a))
  then Some (<[Z.to_nat i := Some v]> a) else None.

(** [Stack(int size = 10)] *)
Definition new (size : Z) : exn + Stack :=
  match new_array size with
  | inl e => inl e
  | inr a => inr {| arr := a; capacity := size; topIndex := -1 |}
  end.

(** The default argument of the constructor. *)
Definition default_size : Z := 10.

Definition isEmpty (s : Stack) : bool := topIndex s =? -1.

Definition size (s : Stack) : Z := topIndex s + 1.

(** [for (int i = 0; i <= topIndex; i++) newArr[i] = arr[i];] with [n]
    the number of iterations left. *)
Fixpoint copy_loop (n : nat) (i : Z) (src dst : list (option T))
  : option (list (option T)) :=
  match n with
  | O => Some dst
  | S n' =>
      v ← cell_read src i;
      dst' ← cell_write dst i v;
      if in_int (i + 1) then copy_loop n' (i + 1) src dst' else None
  end.

(** [resize()]: [capacity *= 2], a new buffer, the cells [0 .. topIndex]
    copied over. *)
Definition resize (s : Stack) : outcome Stack unit :=
  let cap := capacity s * 2 in
  if in_int cap then
    let s1 := {| arr := arr s; topIndex := topIndex s; capacity := cap |} in
    match new_array cap with
    | inl e => Throw e s1
    | inr newArr =>
        match copy_loop (Z.to_nat (topIndex s + 1)) 0 (arr s) newArr with
        | Some newArr' =>
            Ok () {| arr := newArr'; topIndex := topIndex s; capacity := cap |}
        | None => UB
        end
    end
  else UB.

(** [push(value)]: [if (topIndex == capacity - 1) resize();
    arr[++topIndex] = value;] *)
Definition push (value : T) (s : Stack) : outcome Stack unit :=
  if in_int (capacity s - 1) then
    obind (if topIndex s =? capacity s - 1 then resize s else Ok () s)
      (λ _ s1,
         let t := topIndex s1 + 1 in
         if in_int t then
           match cell_write (arr s1) t value with
           | Some a =>
               Ok () {| arr := a; topIndex := t; capacity := capacity s1 |}
           | None => UB
           end
         else UB)
  else UB.

(** [pop()]: throws on an empty stack, before anything is changed;
    otherwise [return arr[topIndex--];] *)
Definition pop (s : Stack) : outcome Stack T :=
  if isEmpty s then
    Throw (runtime_error "Stack Underflow: Cannot pop from empty stack") s
  else
    match cell_read (arr s) (topIndex s) with
    | Some value =>
        if in_int (topIndex s - 1) then
          Ok value {| arr := arr s; topIndex := topIndex s - 1;
                      capacity := capacity s |}
        else UB
    | None => UB
    end.

(** [peek() const] *)
Definition peek (s : Stack) : outcome Stack T :=
  if isEmpty s then Throw (runtime_error "Stack is empty: Cannot peek") s
  else
    match cell_read (arr s) (topIndex s) with
    | Some value => Ok value s
    | None => UB
    end.

(** Callers: a run of pushes, and a run of pops collecting what they
    return. *)
Fixpoint push_all (ps : list T) (s : Stack) : outcome Stack unit :=
  match ps with
  | [] => Ok () s
  | p :: ps' => obind (push p s) (λ _ s', push_all ps' s')
  end.

Fixpoint pop_n (n : nat) (s : Stack) : outcome Stack (list T) :=
  match n with
  | O => Ok [] s
  | S n' =>
      obind (pop s) (λ v s',
        obind (pop_n n' s') (λ vs s'', Ok (v :: vs) s''))
  end.

(** The logical contents, bottom first: the cells [0 .. topIndex]. *)
Definition contents (s : Stack) : list (option T) :=
  take (Z.to_nat (size s)) (arr s).

(** Representation invariant: [xs] are the elements, in push order. *)
Definition rep (s : Stack) (xs : list T) : Prop :=
  1 ≤ capacity s ≤ INT_MAX
  ∧ Z.of_nat (length (arr s)) = capacity s
  ∧ size s = Z.of_nat (length xs)
  ∧ size s ≤ capacity s
  ∧ contents s = Some <$> xs.

(** The states a stack goes through, with the elements pushed and not yet
    popped: any sequence of [push] and [pop] calls on a stack created
    with a positive capacity. *)
Inductive reach : Stack → list T → Prop :=
  | reach_new c s : 1 ≤ c ≤ INT_MAX → new c = inr s → reach s []
  | reach_push s xs v s' :
      reach s xs → push v s = Ok () s' → reach s' (xs ++ [v])
  | reach_pop s xs v s' :
      reach s xs → pop s = Ok v s' → reach s' (removelast xs)
  | reach_throw s xs e s' :
      reach s xs → pop s = Throw e s' → reach s' xs.
End stack.
Arguments Stack : clear implicits.
End Stack.

(** ** Queue<T> *)

Module Queue.

(** Addresses of heap nodes; [Node<T>*] is [option loc], [nullptr] being
    [None]. *)
Abbreviation loc := positive.

Section queue.
Context {T : Type}.

Record Node : Type := mkNode {
  data : T;
  next : option loc
}.

(** The queue together with the part of the heap that holds its nodes. *)
Record Queue : Type := mkQueue {
  heap : gmap loc Node;
  frontPtr : option loc;
  rearPtr : option loc;
  count : Z
}.

(** [new Node<T>(value)] returns an address that is not in use. *)
Definition alloc (h : gmap loc Node) : loc := fresh (dom h).

(** [Queue()] *)
Definition new : Queue :=
  {| heap := ∅; frontPtr := None; rearPtr := None; count := 0 |}.

(** [isEmpty()]: [frontPtr == nullptr] *)
Definition isEmpty (q : Queue) : bool := bool_decide (frontPtr q = None).

Definition size (q : Queue) : Z := count q.

(** [enqueue(value)]: the new node becomes the front and the rear of an
    empty queue, or is linked after the rear node; then [count++]. *)
Definition enqueue (value : T) (q : Queue) : outcome Queue unit :=
  let newNode := alloc (heap q) in
  let h := <[newNode := {| data := value; next := None |}]> (heap q) in
  obind
    (if isEmpty q then
       Ok () {| heap := h; frontPtr := Some newNode; rearPtr := Some newNode;
                count := count q |}
     else
       match rearPtr q with
       | Some r =>
           match h !! r with
           | Some nd =>
               Ok () {| heap := <[r := {| data := data nd;
                                          next := Some newNode |}]> h;
                        frontPtr := frontPtr q; rearPtr := Some newNode;
                        count := count q |}
           | None => UB
           end
       | None => UB
       end)
    (λ _ q1,
       if in_int (count q1 + 1) then
         Ok () {| heap := heap q1; frontPtr := frontPtr q1;
                  rearPtr := rearPtr q1; count := count q1 + 1 |}
       else UB).

(** [dequeue()]: throws on an empty queue, before anything is changed;
    otherwise the front node is unlinked and deleted, [rearPtr] is reset
    when the chain becomes empty, and [count--]. *)
Definition dequeue (q : Queue) : outcome Queue T :=
  if isEmpty q then
    Throw (runtime_error "Queue Underflow: Cannot dequeue from empty queue") q
  else
    match frontPtr q with
    | Some temp =>
        match heap q !! temp with
        | Some nd =>
            let value := data nd in
            let f := next nd in
            let r := if bool_decide (f = None) then None else rearPtr q in
            if in_int (count q - 1) then
              Ok value {| heap := delete temp (heap q); frontPtr := f;
                          rearPtr := r; count := count q - 1 |}
            else UB
        | None => UB
        end
    | None => UB
    end.

(** [front() const] *)
Definition front (q : Queue) : outcome Queue T :=
  if isEmpty q then
    Throw (runtime_error "Queue is empty: Cannot access front") q
  else
    match frontPtr q with
    | Some f =>
        match heap q !! f with
        | Some nd => Ok (data nd) q
        | None => UB
        end
    | None => UB
    end.

(** Callers: a run of enqueues, and a run of dequeues collecting what
    they return. *)
Fixpoint enqueue_all (es : list T) (q : Queue) : outcome Queue unit :=
  match es with
  | [] => Ok () q
  | e :: es' => obind (enqueue e q) (λ _ q', enqueue_all es' q')
  end.

Fixpoint dequeue_n (n : nat) (q : Queue) : outcome Queue (list T) :=
  match n with
  | O => Ok [] q
  | S n' =>
      obind (dequeue q) (λ v q',
        obind (dequeue_n n' q') (λ vs q'', Ok (v :: vs) q''))
  end.

(** The node reached from node [l] after [n] next-links, if the chain is
    that long. *)
Fixpoint follow (h : gmap loc Node) (n : nat) (l : loc) : option loc :=
  match n with
  | O => Some l
  | S n' => nd ← h !! l; l' ← next nd; follow h n' l'
  end.

(** The states a queue goes through: any sequence of [enqueue] and
    [dequeue] calls on a new queue, a failed [dequeue] included. *)
Inductive reach : Queue → Prop :=
  | reach_new : reach new
  | reach_enqueue q v q' : reach q → enqueue v q = Ok () q' → reach q'
  | reach_dequeue q v q' : reach q → dequeue q = Ok v q' → reach q'
  | reach_dequeue_throw q e q' : reach q → dequeue q = Throw e q' → reach q'.

(** Representation invariant: the chain is made of the nodes [ls], which
    hold [xs], front first. *)
Definition rep (q : Queue) (ls : list loc) (xs : list T) : Prop :=
  NoDup ls
  ∧ length ls = length xs
  ∧ count q = Z.of_nat (length xs)
  ∧ count q ≤ INT_MAX
  ∧ frontPtr q = head ls
  ∧ rearPtr q = last ls
  ∧ dom (heap q) = list_to_set ls
  ∧ ∀ (i : nat) l x, ls !! i = Some l → xs !! i = Some x →
      heap q !! l = Some {| data := x; next := ls !! S i |}.
End queue.
Arguments Node : clear implicits.
Arguments Queue : clear implicits.
End Queue.

(** ** The Java side: sorting and searching on arrays

    The source sorts [int[]].  The model takes an element type [A] with a
    sort key [key : A → Z] and compares elements by their keys, so that
    equal keys can be told apart when stability is stated; [int[]] is the
    instance [A := Z] with the identity as key.  An array is the list of
    its elements; index arithmetic is on [Z]: a Java array has at most
    [2^31 - 1] elements and every index expression below stays between
    [-1] and its length, so no [int] operation wraps.

    Each loop and each recursive method is a [Fixpoint] on a counter that
    starts at [gas]; a run that needs more ends in [OutOfFuel]. *)

Module Java.

Inductive exn : Type :=
  | ArrayIndexOutOfBounds
  | NegativeArraySize.

Inductive result (A : Type) : Type :=
  | Done (a : A)
  | Raise (e : exn)
  | OutOfFuel.
Arguments Done {A} a.
Arguments Raise {A} e.
Arguments OutOfFuel {A}.

#[export] Instance result_ret : MRet result := λ A a, Done a.
#[export] Instance result_bind : MBind result := λ A B k r,
  match r with
  | Done a => k a
  | Raise e => Raise e
  | OutOfFuel => OutOfFuel
  end.

Section sorting_searching.
Context {A : Type} (key : A → Z) (zero : A).
Variable gas : nat.

(** [arr.length] *)
Definition len (arr : list A) : Z := Z.of_nat (length arr).

(** [arr[i]] *)
Definition aget (arr : list A) (i : Z) : result A :=
  if (0 <=? i) && (i <? len arr) then
    match arr !! Z.to_nat i with
    | Some x => Done x
    | None => Raise ArrayIndexOutOfBounds
    end
  else Raise ArrayIndexOutOfBounds.

(** [arr[i] = v] *)
Definition aset (arr : list A) (i : Z) (v : A) : result (list A) :=
  if (0 <=? i) && (i <? len arr) then Done (<[Z.to_nat i := v]> arr)
  else Raise ArrayIndexOutOfBounds.

(** [new int[n]]: [n] cells holding zero. *)
Definition new_array (n : Z) : result (list A) :=
  if n <? 0 then Raise NegativeArraySize
  else Done (replicate (Z.to_nat n) zero).

(** [swap(arr, i, j)] *)
Definition swap (arr : list A) (i j : Z) : result (list A) :=
  temp ← aget arr i;
  aj ← aget arr j;
  arr1 ← aset arr i aj;
  aset arr1 j temp.

(** *** Bubble sort *)

(** [for (int j = ..; j < arr.length - 1 - i; j++)] *)
Fixpoint bubble_inner (n : nat) (arr : list A) (i j : Z) (swapped : bool)
  : result (list A * bool) :=
  match n with
  | O => OutOfFuel
  | S n' =>
      if j <? len arr - 1 - i then
        aj ← aget arr j;
        aj1 ← aget arr (j + 1);
        if key aj >? key aj1 then
          arr' ← swap arr j (j + 1);
          bubble_inner n' arr' i (j + 1) true
        else bubble_inner n' arr i (j + 1) swapped
      else Done (arr, swapped)
  end.

(** [for (int i = ..; i < arr.length - 1; i++)] *)
Fixpoint bubble_outer (n : nat) (arr : list A) (i : Z) : result (list A) :=
  match n with
  | O => OutOfFuel
  | S n' =>
      if i <? len arr - 1 then
        '(arr', swapped) ← bubble_inner gas arr i 0 false;
        if negb swapped then Done arr'
        else bubble_outer n' arr' (i + 1)
      else Done arr
  end.

Definition bubbleSort (arr : list A) : result (list A) :=
  bubble_outer gas arr 0.

(** *** Selection sort *)

(** [for (int j = ..; j < arr.length; j++)] *)
Fixpoint selection_inner (n : nat) (arr : list A) (j minIdx : Z)
  : result Z :=
  match n with
  | O => OutOfFuel
  | S n' =>
      if j <? len arr then
        aj ← aget arr j;
        am ← aget arr minIdx;
        selection_inner n' arr (j + 1)
          (if key aj <? key am then j else minIdx)
      else Done minIdx
  end.

(** [for (int i = ..; i < arr.length - 1; i++)] *)
Fixpoint selection_outer (n : nat) (arr : list A) (i : Z)
  : result (list A) :=
  match n with
  | O => OutOfFuel
  | S n' =>
      if i <? len arr - 1 then
        minIdx ← selection_inner gas arr (i + 1) i;
        arr' ← swap arr i minIdx;
        selection_outer n' arr' (i + 1)
      else Done arr
  end.

Definition selectionSort (arr : list A) : result (list A) :=
  selection_outer gas arr 0.

(** *** Insertion sort *)

(** [while (j >= 0 && arr[j] > key) { arr[j + 1] = arr[j]; j--; }] *)
Fixpoint insertion_inner (n : nat) (arr : list A) (k : A) (j : Z)
  : result (list A * Z) :=
  match n with
  | O => OutOfFuel
  | S n' =>
      if 0 <=? j then
        aj ← aget arr j;
        if key aj >? key k then
          aj' ← aget arr j;
          arr' ← aset arr (j + 1) aj';
          insertion_inner n' arr' k (j - 1)
        else Done (arr, j)
      else Done (arr, j)
  end.

(** [for (int i = ..; i < arr.length; i++)] *)
Fixpoint insertion_outer (n : nat) (arr : list A) (i : Z)
  : result (list A) :=
  match n with
  | O => OutOfFuel
  | S n' =>
      if i <? len arr then
        k ← aget arr i;
        '(arr1, j) ← insertion_inner gas arr k (i - 1);
        arr2 ← aset arr1 (j + 1) k;
        insertion_outer n' arr2 (i + 1)
      else Done arr
  end.

Definition insertionSort (arr : list A) : result (list A) :=
  insertion_outer gas arr 1.

(** *** Merge sort *)

(** [for (int i = ..; i < cnt; i++) dst[i] = src[off + i];] *)
Fixpoint copy_range (n : nat) (dst src : list A) (off cnt i : Z)
  : result (list A) :=
  match n with
  | O => OutOfFuel
  | S n' =>
      if i <? cnt then
        v ← aget src (off + i);
        dst' ← aset dst i v;
        copy_range n' dst' src off cnt (i + 1)
      else Done dst
  end.

(** [while (i < n1 && j < n2) ..] *)
Fixpoint merge_both (n : nat) (arr L R : list A) (n1 n2 i j k : Z)
  : result (list A * Z * Z * Z) :=
  match n with
  | O => OutOfFuel
  | S n' =>
      if (i <? n1) && (j <? n2) then
        li ← aget L i;
        rj ← aget R j;
        if key li <=? key rj then
          arr' ← aset arr k li;
          merge_both n' arr' L R n1 n2 (i + 1) j (k + 1)
        else
          arr' ← aset arr k rj;
          merge_both n' arr' L R n1 n2 i (j + 1) (k + 1)
      else Done (arr, i, j, k)
  end.

(** [while (i < cnt) arr[k++] = src[i++];] *)
Fixpoint merge_rest (n : nat) (arr src : list A) (cnt i k : Z)
  : result (list A * Z) :=
  match n with
  | O => OutOfFuel
  | S n' =>
      if i <? cnt then
        v ← aget src i;
        arr' ← aset arr k v;
        merge_rest n' arr' src cnt (i + 1) (k + 1)
      else Done (arr, k)
  end.

(** [merge(arr, left, mid, right)] *)
Definition merge (arr : list A) (left mid right : Z) : result (list A) :=
  let n1 := mid - left + 1 in
  let n2 := right - mid in
  L0 ← new_array n1;
  R0 ← new_array n2;
  L ← copy_range gas L0 arr left n1 0;
  R ← copy_range gas R0 arr (mid + 1) n2 0;
  '(arr1, i, j, k) ← merge_both gas arr L R n1 n2 0 0 left;
  '(arr2, k2) ← merge_rest gas arr1 L n1 i k;
  '(arr3, _) ← merge_rest gas arr2 R n2 j k2;
  Done arr3.

(** [mergeSort(int[] arr, int left, int right)] *)
Fixpoint mergeSort_rec (n : nat) (arr : list A) (left right : Z)
  : result (list A) :=
  match n with
  | O => OutOfFuel
  | S n' =>
      if left >=? right then Done arr
      else
        let mid := left + (right - left) `quot` 2 in
        arr1 ← mergeSort_rec n' arr left mid;
        arr2 ← mergeSort_rec n' arr1 (mid + 1) right;
        merge arr2 left mid right
  end.

(** [mergeSort(int[] arr)] *)
Definition mergeSort (arr : list A) : result (list A) :=
  if len arr <=? 1 then Done arr
  else mergeSort_rec gas arr 0 (len arr - 1).

(** *** Quick sort *)

(** [for (int j = ..; j < high; j++)] *)
Fixpoint partition_loop (n : nat) (arr : list A) (pivot : A) (high i j : Z)
  : result (list A * Z) :=
  match n with
  | O => OutOfFuel
  | S n' =>
      if j <? high then
        aj ← aget arr j;
        if key aj <=? key pivot then
          arr' ← swap arr (i + 1) j;
          partition_loop n' arr' pivot high (i + 1) (j + 1)
        else partition_loop n' arr pivot high i (j + 1)
      else Done (arr, i)
  end.

(** [partition(arr, low, high)]: the pivot is the last element of the
    range. *)
Definition partition (arr : list A) (low high : Z) : result (list A * Z) :=
  pivot ← aget arr high;
  '(arr1, i) ← partition_loop gas arr pivot high (low - 1) low;
  arr2 ← swap arr1 (i + 1) high;
  Done (arr2, i + 1).

(** [quickSort(int[] arr, int low, int high)] *)
Fixpoint quickSort_rec (n : nat) (arr : list A) (low high : Z)
  : result (list A) :=
  match n with
  | O => OutOfFuel
  | S n' =>
      if low <? high then
        '(arr1, p) ← partition arr low high;
        arr2 ← quickSort_rec n' arr1 low (p - 1);
        quickSort_rec n' arr2 (p + 1) high
      else Done arr
  end.

(** [quickSort(int[] arr)] *)
Definition quickSort (arr : list A) : result (list A) :=
  quickSort_rec gas arr 0 (len arr - 1).

(** *** Searching *)

(** [for (int i = ..; i < arr.length; i++) if (arr[i] == target) return i;] *)
Fixpoint linear_loop (n : nat) (arr : list A) (target i : Z) : result Z :=
  match n with
  | O => OutOfFuel
  | S n' =>
      if i <? len arr then
        ai ← aget arr i;
        if key ai =? target then Done i
        else linear_loop n' arr target (i + 1)
      else Done (-1)
  end.

Definition linearSearch (arr : list A) (target : Z) : result Z :=
  linear_loop gas arr target 0.

(** [while (left <= right) ..] *)
Fixpoint binary_loop (n : nat) (arr : list A) (target left right : Z)
  : result Z :=
  match n with
  | O => OutOfFuel
  | S n' =>
      if left <=? right then
        let mid := left + (right - left) `quot` 2 in
        am ← aget arr mid;
        if key am =? target then Done mid
        else
          am' ← aget arr mid;
          if key am' <? target then binary_loop n' arr target (mid + 1) right
          else binary_loop n' arr target left (mid - 1)
      else Done (-1)
  end.

Definition binarySearch (arr : list A) (target : Z) : result Z :=
  binary_loop gas arr target 0 (len arr - 1).

(** *** Specification vocabulary *)

(** Non-decreasing order of the keys. *)
Definition key_le (x y : A) : Prop := key x ≤ key y.

#[export] Instance key_le_dec : RelDecision key_le :=
  λ x y, decide (key x ≤ key y).

Definition sorted (l : list A) : Prop := Sorted key_le l.

(** The elements of key [k], in the order they occur. *)
Definition with_key (k : Z) (l : list A) : list A :=
  filter (λ x, key x = k) l.

(** [l'] keeps elements of equal key in the order they have in [l]. *)
Definition stable (l l' : list A) : Prop :=
  ∀ k, with_key k l' = with_key k l.

(** Every element is below every later one. *)
Definition ssorted (l : list A) : Prop := StronglySorted key_le l.

(** Stable rearrangement: a permutation that keeps elements of equal key
    in their order. *)
Definition sperm (l l' : list A) : Prop := l' ≡ₚ l ∧ stable l l'.

(** *** What the loops compute, on lists *)

(** One pass of bubble sort over [x :: rest]: the element carried along
    is exchanged with a strictly smaller neighbour. *)
Fixpoint bubble (x : A) (rest : list A) : list A :=
  match rest with
  | [] => [x]
  | y :: rest' =>
      if key x >? key y then y :: bubble x rest' else x :: bubble y rest'
  end.

(** Whether that pass exchanges anything. *)
Fixpoint bubble_swaps (x : A) (rest : list A) : bool :=
  match rest with
  | [] => false
  | y :: rest' =>
      if key x >? key y then true else bubble_swaps y rest'
  end.

(** Merging two segments, the left one first on equal keys. *)
Definition merge_lists (l1 l2 : list A) : list A := list_merge key_le l1 l2.

(** A sorting method is correct on [arr]: it returns, and leaves a
    permutation of [arr] in non-decreasing order. *)
Definition sorts (sort : list A → result (list A)) (arr : list A) : Prop :=
  ∃ out, sort arr = Done out ∧ sorted out ∧ out ≡ₚ arr.

(** It is moreover stable on [arr]. *)
Definition sorts_stably (sort : list A → result (list A)) (arr : list A)
  : Prop :=
  ∃ out, sort arr = Done out ∧ stable arr out.
End sorting_searching.

(** The element type of the source: [int], ordered by its value. *)
Definition int_key (x : Z) : Z := x.
End Java.

(** ** The other member functions: [display] and the destructor

    [display] writes to [cout]; what it writes is modelled as the sequence
    of things inserted into the stream, one token per [<<]. *)

Inductive token (T : Type) : Type :=
  | Str (s : string)
  | Val (v : T)
  | Endl.
Arguments Str {T} s.
Arguments Val {T} v.
Arguments Endl {T}.

(** Result of a function whose loop follows pointers: it returns, it has
    undefined behaviour, an exception leaves a destructor
    ([std::terminate]), or the counter of the model runs out. *)
Inductive looped (A : Type) : Type :=
  | Finished (a : A)
  | Undefined
  | Terminate
  | NoFuel.
Arguments Finished {A} a.
Arguments Undefined {A}.
Arguments Terminate {A}.
Arguments NoFuel {A}.

(** The values [l], with [" <- "] between two of them. *)
Fixpoint sep_by {T : Type} (l : list T) : list (token T) :=
  match l with
  | [] => []
  | x :: l' =>
      match l' with
      | [] => [Val x]
      | _ :: _ => Val x :: Str " <- " :: sep_by l'
      end
  end.

Module StackDisplay.
Import Stack.
Section display.
Context {T : Type}.

(** [for (int i = ..; i >= 0; i--) { cout << arr[i]; if (i > 0) cout <<
    " <- "; }] with [n] the number of iterations left. *)
Fixpoint display_loop (n : nat) (i : Z) (a : list (option T))
  : option (list (token T)) :=
  match n with
  | O => Some []
  | S n' =>
      v ← cell_read a i;
      if in_int (i - 1) then
        rest ← display_loop n' (i - 1) a;
        Some (Val v :: (if 0 <? i then [Str " <- "] else []) ++ rest)
      else None
  end.

(** [display() const]: [None] is undefined behaviour. *)
Definition display (s : Stack T) : option (list (token T)) :=
  if isEmpty s then Some [Str "Stack is empty"; Endl]
  else
    out ← display_loop (Z.to_nat (topIndex s + 1)) (topIndex s) (arr s);
    Some (Str "Stack (top to bottom): " :: out ++ [Endl]).
End display.

(** An example state: a stack of capacity 2 after [push(7)]. *)
Definition stack_7 : Stack Z :=
  {| arr := [Some 7; None]; topIndex := 0; capacity := 2 |}.

(** A full stack of capacity [2^30], holding zeros. *)
Definition stack_full_2_30 : Stack Z :=
  {| arr := replicate (Z.to_nat 1073741824) (Some 0);
     topIndex := 1073741823; capacity := 1073741824 |}.
End StackDisplay.

Module QueueMore.
Import Queue.
Section more.
Context {T : Type}.

(** [while (current != nullptr) { cout << current->data; if
    (current->next != nullptr) cout << " <- "; current = current->next; }] *)
Fixpoint display_loop (n : nat) (h : gmap loc (Node T)) (current : option loc)
  : looped (list (token T)) :=
  match n with
  | O => NoFuel
  | S n' =>
      match current with
      | None => Finished []
      | Some l =>
          match h !! l with
          | None => Undefined
          | Some nd =>
              match display_loop n' h (next nd) with
              | Finished out =>
                  Finished (Val (data nd)
                              :: (if next nd is Some _ then [Str " <- "]
                                  else []) ++ out)
              | other => other
              end
          end
      end
  end.

(** [display() const], with [gas] the counter of its loop. *)
Definition display (gas : nat) (q : Queue T) : looped (list (token T)) :=
  if isEmpty q then Finished [Str "Queue is empty"; Endl]
  else
    match display_loop gas (heap q) (frontPtr q) with
    | Finished out => Finished (Str "Queue (front to rear): " :: out ++ [Endl])
    | other => other
    end.

(** [~Queue()]: [while (!isEmpty()) dequeue();].  The result is the state
    in which the object is given up; the heap in it is what the queue
    leaves behind. *)
Fixpoint destroy (n : nat) (q : Queue T) : looped (Queue T) :=
  match n with
  | O => NoFuel
  | S n' =>
      if isEmpty q then Finished q
      else
        match dequeue q with
        | Ok _ q' => destroy n' q'
        | Throw _ _ => Terminate
        | UB => Undefined
        end
  end.

(** The values held by the chain that starts at [p], front first, if the
    chain ends within [n] nodes. *)
Fixpoint walk (h : gmap loc (Node T)) (n : nat) (p : option loc)
  : option (list T) :=
  match p with
  | None => Some []
  | Some l =>
      match n with
      | O => None
      | S n' => nd ← h !! l; (data nd ::.) <$> walk h n' (next nd)
      end
  end.

(** The elements of the queue, read off its chain of [count] nodes. *)
Definition elements (q : Queue T) : option (list T) :=
  walk (heap q) (Z.to_nat (count q)) (frontPtr q).
End more.

(** Example states: a queue after [enqueue(1)], and after [enqueue(2)]
    as well. *)
Definition queue_1 : Queue Z :=
  match enqueue 1 new with Ok _ q => q | _ => new end.

Definition queue_12 : Queue Z :=
  match enqueue 2 queue_1 with Ok _ q => q | _ => new end.
End QueueMore.

(** * The range of [int] *)

Module IntFacts.
Lemma in_int_true z : INT_MIN ≤ z ≤ INT_MAX → in_int z = true.
Proof.
  intros [? ?]. unfold in_int. apply andb_true_iff; split; apply Z.leb_le; lia.
Qed.

Lemma in_int_above z : INT_MAX < z → in_int z = false.
Proof.
  intros ?. unfold in_int. apply andb_false_iff. right. apply Z.leb_gt. lia.
Qed.
End IntFacts.

(** * Stack<T>: proofs *)

Module StackFacts.
Import Stack IntFacts.

Ltac int_lia := unfold INT_MAX, INT_MIN, size in *; lia.

Section facts.
Context {T : Type}.
Implicit Types (s : Stack T) (xs ps : list T) (v : T).

Lemma cell_read_app (pfx : list T) v (rest : list (option T)) :
  cell_read ((Some <$> pfx) ++ Some v :: rest) (Z.of_nat (length pfx))
  = Some v.
Proof.
  unfold cell_read.
  destruct (Z.ltb_spec (Z.of_nat (length pfx)) 0) as [?|_]; [lia|].
  rewrite Nat2Z.id, lookup_app_r by (rewrite length_fmap; lia).
  rewrite length_fmap, Nat.sub_diag. reflexivity.
Qed.

Lemma cell_write_app (d1 : list (option T)) o d2 v :
  cell_write (d1 ++ o :: d2) (Z.of_nat (length d1)) v
  = Some (d1 ++ Some v :: d2).
Proof.
  unfold cell_write. rewrite length_app. simpl length.
  destruct (Z.leb_spec 0 (Z.of_nat (length d1))); [|lia].
  destruct (Z.ltb_spec (Z.of_nat (length d1))
              (Z.of_nat (length d1 + S (length d2)))); [|lia].
  simpl. rewrite Nat2Z.id.
  rewrite insert_app_r_alt, Nat.sub_diag by lia. reflexivity.
Qed.

Lemma copy_loop_app (todo : list T) :
  ∀ (pfx : list T) (d1 d2 rest : list (option T)),
    length d1 = length pfx →
    (length todo ≤ length d2)%nat →
    Z.of_nat (length pfx + length todo) ≤ INT_MAX →
    copy_loop (length todo) (Z.of_nat (length pfx))
      ((Some <$> pfx) ++ (Some <$> todo) ++ rest) (d1 ++ d2)
    = Some (d1 ++ (Some <$> todo) ++ drop (length todo) d2).
Proof.
  induction todo as [|x todo IH]; intros pfx d1 d2 rest Hd1 Hd2 Hmax.
  - reflexivity.
  - destruct d2 as [|o d2]; [simpl in Hd2; lia|].
    simpl in Hd2, Hmax. cbn [copy_loop length fmap list_fmap app].
    rewrite cell_read_app. cbn [mbind option_bind].
    rewrite <- Hd1, cell_write_app. cbn [mbind option_bind].
    assert (Hin : in_int (Z.of_nat (length d1) + 1) = true).
    { unfold in_int, INT_MIN, INT_MAX in *. rewrite Hd1.
      apply andb_true_iff; split; apply Z.leb_le; lia. }
    rewrite Hin.
    specialize (IH (pfx ++ [x]) (d1 ++ [Some x]) d2 rest).
    revert IH. rewrite !length_app. simpl length.
    rewrite fmap_app. simpl. rewrite <- !(assoc_L (++)). simpl.
    replace (Z.of_nat (length pfx + 1)) with (Z.of_nat (length d1) + 1)
      by lia.
    intros IH. rewrite IH by lia. reflexivity.
Qed.

Lemma rep_arr s xs :
  rep s xs → arr s = (Some <$> xs) ++ drop (length xs) (arr s).
Proof.
  intros (_ & _ & Hsz & _ & Hc). unfold contents in Hc.
  rewrite <- Hc. rewrite Hsz, Nat2Z.id. symmetry. apply take_drop.
Qed.

Lemma new_spec c :
  1 ≤ c ≤ INT_MAX → ∃ s, new c = inr s ∧ rep s [] ∧ capacity s = c.
Proof.
  intros Hc. unfold new, new_array.
  destruct (Z.ltb_spec c 0); [lia|].
  eexists; split; [reflexivity|]. split; [|reflexivity].
  unfold rep, contents, size; simpl. rewrite length_replicate.
  repeat split; try int_lia. 
Qed.

Lemma resize_spec s xs :
  rep s xs → 2 * capacity s ≤ INT_MAX →
  ∃ s', resize s = Ok () s' ∧ rep s' xs
        ∧ capacity s' = 2 * capacity s ∧ topIndex s' = topIndex s.
Proof.
  intros Hrep Hmax. pose proof (rep_arr _ _ Hrep) as Harr.
  destruct Hrep as (Hcap & Hlen & Hsz & Hle & Hc).
  unfold resize. rewrite in_int_true by int_lia.
  unfold new_array. destruct (Z.ltb_spec (capacity s * 2) 0); [lia|].
  unfold size in Hsz. rewrite Hsz, Nat2Z.id.
  pose proof (copy_loop_app xs [] [] 
                (replicate (Z.to_nat (capacity s * 2)) None)
                (drop (length xs) (arr s))) as Hcopy.
  simpl in Hcopy. change (Z.of_nat 0) with 0 in Hcopy.
  rewrite <- Harr in Hcopy.
  rewrite Hcopy; clear Hcopy.
  - eexists; split; [reflexivity|]. split; [|simpl; lia].
    unfold rep, contents, size; simpl.
    rewrite length_app, length_fmap, length_drop, length_replicate.
    rewrite Hsz, Nat2Z.id.
    repeat split; try int_lia.
    apply take_app_length'. rewrite length_fmap; lia.
  - reflexivity.
  - rewrite length_replicate. int_lia.
  - int_lia.
Qed.

Lemma push_spec s xs v :
  rep s xs → (size s < capacity s ∨ 2 * capacity s ≤ INT_MAX) →
  ∃ s', push v s = Ok () s' ∧ rep s' (xs ++ [v])
        ∧ capacity s' = if size s =? capacity s then 2 * capacity s
                        else capacity s.
Proof.
  intros Hrep Hroom. unfold push.
  assert (Hcap : 1 ≤ capacity s ≤ INT_MAX) by apply Hrep.
  rewrite in_int_true by int_lia.
  assert (Hs1 : ∃ s1, (if topIndex s =? capacity s - 1 then resize s
                       else Ok () s) = Ok () s1
                      ∧ rep s1 xs ∧ size s1 < capacity s1
                      ∧ capacity s1 = (if size s =? capacity s
                                       then 2 * capacity s else capacity s)).
  { unfold size in *.
    destruct (Z.eqb_spec (topIndex s) (capacity s - 1)) as [Hfull|Hnot].
    - destruct (resize_spec s xs Hrep) as (s1 & -> & Hrep1 & Hc1 & Ht1);
        [lia|].
      exists s1. rewrite Ht1, Hc1.
      destruct (Z.eqb_spec (topIndex s + 1) (capacity s)); [|lia].
      split_and!; try done; int_lia.
    - exists s. destruct (Z.eqb_spec (topIndex s + 1) (capacity s)); [lia|].
      split_and!; try done; destruct Hrep as (? & ? & ? & ? & ?); int_lia. }
  destruct Hs1 as (s1 & -> & Hrep1 & Hlt & Hc1). simpl.
  pose proof (rep_arr _ _ Hrep1) as Harr.
  destruct Hrep1 as (Hcap1 & Hlen & Hsz & Hle & Hc). unfold size in *.
  rewrite in_int_true by int_lia.
  destruct (drop (length xs) (arr s1)) as [|o rest] eqn:Hdrop.
  { apply (f_equal length) in Hdrop. rewrite length_drop in Hdrop.
    simpl in Hdrop. lia. }
  rewrite Harr, Hsz.
  replace (Z.of_nat (length xs)) with (Z.of_nat (length (Some <$> xs)))
    by (rewrite length_fmap; done).
  rewrite cell_write_app.
  eexists; split; [reflexivity|]. split; [|simpl; done].
  unfold rep, contents, size; simpl.
  rewrite !length_app, !length_fmap. simpl length.
  apply (f_equal length) in Harr.
  rewrite length_app, length_fmap in Harr. simpl in Harr.
  repeat split; try int_lia.
  rewrite fmap_app. simpl.
  replace (Some <$> xs) with ((Some <$> xs) ++ []) at 1 by apply app_nil_r.
  rewrite (cons_middle (Some v)), (assoc_L (++)).
  rewrite app_nil_r.
  apply take_app_length'. rewrite length_app, length_fmap. simpl. lia.
Qed.

Lemma pop_spec s xs v :
  rep s (xs ++ [v]) →
  ∃ s', pop s = Ok v s' ∧ rep s' xs ∧ capacity s' = capacity s.
Proof.
  intros Hrep. pose proof (rep_arr _ _ Hrep) as Harr.
  destruct Hrep as (Hcap & Hlen & Hsz & Hle & Hc). unfold size in *.
  rewrite length_app in *. simpl length in *.
  unfold pop, isEmpty.
  destruct (Z.eqb_spec (topIndex s) (-1)); [lia|].
  assert (Hread : cell_read (arr s) (topIndex s) = Some v).
  { rewrite Harr, fmap_app, <- (assoc_L (++)). simpl.
    replace (topIndex s) with (Z.of_nat (length xs)) by lia.
    apply cell_read_app. }
  rewrite Hread, in_int_true by int_lia.
  eexists; split; [reflexivity|]. split; [|done].
  unfold rep, contents, size; simpl. repeat split; try int_lia.
  rewrite Harr, fmap_app, <- (assoc_L (++)).
  replace (Z.to_nat (topIndex s - 1 + 1)) with (length (Some <$> xs))
    by (rewrite length_fmap; lia).
  apply take_app_length.
Qed.

Lemma peek_spec s xs v : rep s (xs ++ [v]) → peek s = Ok v s.
Proof.
  intros Hrep. pose proof (rep_arr _ _ Hrep) as Harr.
  destruct Hrep as (Hcap & Hlen & Hsz & Hle & Hc). unfold size in *.
  rewrite length_app in *. simpl length in *.
  unfold peek, isEmpty.
  destruct (Z.eqb_spec (topIndex s) (-1)); [lia|].
  assert (Hread : cell_read (arr s) (topIndex s) = Some v).
  { rewrite Harr, fmap_app, <- (assoc_L (++)). simpl.
    replace (topIndex s) with (Z.of_nat (length xs)) by lia.
    apply cell_read_app. }
  rewrite Hread. reflexivity.
Qed.

Lemma push_full_overflow s xs v :
  rep s xs → size s = capacity s → INT_MAX < 2 * capacity s →
  push v s = UB.
Proof.
  intros (Hcap & _) Hfull Hbig. unfold push.
  rewrite in_int_true by int_lia.
  destruct (Z.eqb_spec (topIndex s) (capacity s - 1)); [|int_lia].
  unfold resize.
  rewrite in_int_above by lia. done.
Qed.

Lemma push_all_spec ps :
  ∀ s xs, rep s xs → Z.of_nat (length xs + length ps) ≤ 1073741824 →
          ∃ s', push_all ps s = Ok () s' ∧ rep s' (xs ++ ps).
Proof.
  induction ps as [|p ps IH]; intros s xs Hrep Hlen.
  - exists s. rewrite app_nil_r. done.
  - simpl in Hlen. destruct (push_spec s xs p Hrep) as (s1 & Hp & Hrep1 & _).
    { destruct Hrep as (? & ? & ? & ? & ?).
      destruct (decide (size s < capacity s)); [by left|right]. int_lia. }
    destruct (IH s1 (xs ++ [p]) Hrep1) as (s' & Hps & Hrep').
    { rewrite length_app. simpl. lia. }
    exists s'. simpl. rewrite Hp. simpl.
    rewrite <- (assoc_L (++)) in Hrep'. done.
Qed.

Lemma pop_n_spec ys :
  ∀ s xs, rep s (xs ++ ys) →
          ∃ s', pop_n (length ys) s = Ok (reverse ys) s' ∧ rep s' xs.
Proof.
  induction ys as [|y ys IH] using rev_ind; intros s xs Hrep.
  - exists s. rewrite app_nil_r in Hrep. done.
  - rewrite (assoc_L (++)) in Hrep.
    destruct (pop_spec s (xs ++ ys) y Hrep) as (s1 & Hp & Hrep1 & _).
    destruct (IH s1 xs Hrep1) as (s' & Hps & Hrep').
    exists s'. rewrite length_app, Nat.add_1_r. simpl.
    rewrite Hp. simpl. rewrite Hps. simpl.
    rewrite reverse_app. done.
Qed.

Lemma pop_empty s :
  isEmpty s = true →
  pop s = Throw (runtime_error "Stack Underflow: Cannot pop from empty stack") s.
Proof. intros He. unfold pop. rewrite He. done. Qed.

Lemma peek_empty s :
  isEmpty s = true →
  peek s = Throw (runtime_error "Stack is empty: Cannot peek") s.
Proof. intros He. unfold peek. rewrite He. done. Qed.

Lemma rep_nil_isEmpty s : rep s [] → isEmpty s = true.
Proof.
  intros (_ & _ & Hsz & _). unfold isEmpty. apply Z.eqb_eq.
  simpl in Hsz. int_lia.
Qed.

Lemma stack_reach_rep s xs : reach s xs → rep s xs.
Proof.
  induction 1 as [c s Hc Hnew|s xs v s' _ IH Hpush|s xs v s' _ IH Hpop
                 |s xs e s' _ IH Hpop].
  - destruct (new_spec c Hc) as (s0 & Hs0 & Hrep & _). congruence.
  - destruct (decide (size s < capacity s ∨ 2 * capacity s ≤ INT_MAX))
      as [Hroom|Hno].
    + destruct (push_spec s xs v IH Hroom) as (s1 & Hs1 & Hrep & _).
      congruence.
    + rewrite (push_full_overflow s xs v IH) in Hpush; [done| |lia].
      destruct IH as (? & ? & ? & ? & ?). lia.
  - destruct xs as [|x xs _] using rev_ind.
    + rewrite pop_empty in Hpop by (by apply rep_nil_isEmpty). done.
    + destruct (pop_spec s xs x IH) as (s1 & Hs1 & Hrep & _).
      rewrite removelast_last. congruence.
  - unfold pop in Hpop. destruct (isEmpty s); [congruence|].
    destruct (cell_read (arr s) (topIndex s)); [|done].
    destruct (in_int (topIndex s - 1)); done.
Qed.
Lemma push_all_app ps qs :
  ∀ s, push_all (ps ++ qs) s
       = obind (push_all ps s) (λ _ s', push_all qs s').
Proof.
  induction ps as [|p ps IH]; intros s; [done|].
  simpl. destruct (push p s) as [[] s1|e s1|]; simpl; [apply IH|done|done].
Qed.

(** Pushes that all return leave the pushed values on top, whatever their
    number. *)
Lemma push_all_ok_rep ps :
  ∀ s xs s', rep s xs → push_all ps s = Ok () s' → rep s' (xs ++ ps).
Proof.
  induction ps as [|p ps IH]; intros s xs s' Hrep Hpush.
  - simpl in Hpush. rewrite app_nil_r. congruence.
  - simpl in Hpush.
    destruct (decide (size s < capacity s ∨ 2 * capacity s ≤ INT_MAX))
      as [Hroom|Hno].
    + destruct (push_spec s xs p Hrep Hroom) as (s1 & Hp & Hrep1 & _).
      rewrite Hp in Hpush. simpl in Hpush.
      rewrite (assoc_L (++) xs [p] ps : xs ++ p :: ps = (xs ++ [p]) ++ ps).
      by apply (IH s1).
    + rewrite (push_full_overflow s xs p Hrep) in Hpush; [done| |lia].
      destruct Hrep as (? & ? & ? & ? & ?). lia.
Qed.

(** Pushes that fit the buffer do not grow it. *)
Lemma push_all_room ps :
  ∀ s xs, rep s xs → Z.of_nat (length xs + length ps) ≤ capacity s →
          ∃ s', push_all ps s = Ok () s' ∧ rep s' (xs ++ ps)
                ∧ capacity s' = capacity s.
Proof.
  induction ps as [|p ps IH]; intros s xs Hrep Hlen.
  - exists s. rewrite app_nil_r. done.
  - cbn [length] in Hlen.
    assert (Hlt : size s < capacity s).
    { destruct Hrep as (_ & _ & Hsz & _). rewrite Hsz. lia. }
    destruct (push_spec s xs p Hrep) as (s1 & Hp & Hrep1 & Hcap1);
      [by left|].
    destruct (Z.eqb_spec (size s) (capacity s)) as [|_]; [lia|].
    destruct (IH s1 (xs ++ [p]) Hrep1) as (s' & Hps & Hrep' & Hcap').
    { rewrite length_app, Hcap1. cbn [length]. lia. }
    exists s'. simpl. rewrite Hp. simpl.
    rewrite <- (assoc_L (++)) in Hrep'. split_and!; [done|done|congruence].
Qed.

(** A new stack filled to its capacity: no growth on the way, and no
    free cell left. *)
Lemma fill_to_capacity c v :
  1 ≤ c ≤ INT_MAX →
  ∃ s0 s, new c = inr s0
          ∧ push_all (replicate (Z.to_nat c) v) s0 = Ok () s
          ∧ rep s (replicate (Z.to_nat c) v)
          ∧ size s = capacity s
          ∧ capacity s = c.
Proof.
  intros Hc.
  destruct (new_spec c Hc) as (s0 & Hnew & Hrep0 & Hcap0).
  destruct (push_all_room (replicate (Z.to_nat c) v) s0 [] Hrep0)
    as (s & Hpush & Hrep & Hcap).
  { rewrite length_replicate, Hcap0. cbn [length]. lia. }
  exists s0, s. rewrite app_nil_l in Hrep.
  split_and!; [done|done|done| |congruence].
  destruct Hrep as (_ & _ & Hsz & _).
  rewrite Hsz, length_replicate, Hcap, Hcap0. lia.
Qed.
End facts.
End StackFacts.

(** * Claims about the stack *)

Section stack_claims.
Import Stack StackFacts.

(** C1. LIFO law, within the range of the [int] capacity: on a stack
    created with a capacity [c ≥ 1], whenever the pushes of [p1..pn] all
    return, the [n] pops that follow return [pn, .., p1], for any element
    type and whether or not the buffer grew; and the pushes do all return
    when [n ≤ 2^30], where doubling the capacity stays within [int]. *)
Theorem stack_lifo (T : Type) (c : Z) (ps : list T) :
  1 ≤ c ≤ INT_MAX →
  ∃ s0,
    new c = inr s0
    ∧ (∀ s1, push_all ps s0 = Ok () s1 →
         ∃ s2, pop_n (length ps) s1 = Ok (reverse ps) s2
               ∧ isEmpty s2 = true)
    ∧ (Z.of_nat (length ps) ≤ 1073741824 →
       ∃ s1, push_all ps s0 = Ok () s1).
Proof.
  intros Hc.
  destruct (new_spec (T:=T) c Hc) as (s0 & Hnew & Hrep0 & _).
  exists s0. split_and!; [done| |].
  - intros s1 Hpush.
    pose proof (push_all_ok_rep ps s0 [] s1 Hrep0 Hpush) as Hrep1.
    destruct (pop_n_spec ps s1 [] Hrep1) as (s2 & Hpop & Hrep2).
    exists s2. split; [done|]. by apply rep_nil_isEmpty.
  - intros Hn.
    destruct (push_all_spec ps s0 [] Hrep0) as (s1 & Hpush & _);
      [simpl; lia|].
    by exists s1.
Qed.

Lemma stack_lifo_witness :
  ∃ s0 s1 s2,
    new 2 = inr s0
    ∧ push_all [10; 20; 30] s0 = Ok () s1
    ∧ pop_n 3 s1 = Ok [30; 20; 10] s2
    ∧ isEmpty s2 = true.
Proof.
  destruct (stack_lifo Z 2 [10; 20; 30]) as (s0 & Hnew & Hlifo & Hret);
    [unfold INT_MAX; lia|].
  destruct Hret as [s1 Hpush]; [simpl; lia|].
  destruct (Hlifo s1 Hpush) as (s2 & Hpop & He).
  exists s0, s1, s2. split_and!; done.
Defined.

(** C1 fails as stated, for a long enough run of pushes: on a stack
    created with capacity [2^30], the first [2^30] pushes fill the buffer
    and the next one calls [resize], where [capacity *= 2] overflows
    [int].  That push has undefined behaviour, so the pushes do not all
    return and no pop follows. *)
Lemma stack_lifo_fails_past_2_30 :
  ∃ s0 : Stack Z,
    new 1073741824 = inr s0
    ∧ push_all (replicate (Z.to_nat 1073741824) 0 ++ [0]) s0 = UB
    ∧ ¬ (∃ s1, push_all (replicate (Z.to_nat 1073741824) 0 ++ [0]) s0
               = Ok () s1).
Proof.
  destruct (fill_to_capacity (T:=Z) 1073741824 0)
    as (s0 & s & Hnew & Hpush & Hrep & Hfull & Hcap);
    [unfold INT_MAX; lia|].
  assert (Hub : push_all (replicate (Z.to_nat 1073741824) 0 ++ [0]) s0
                = UB).
  { rewrite push_all_app, Hpush. cbn [obind push_all].
    rewrite (push_full_overflow s _ 0 Hrep Hfull); [done|].
    rewrite Hcap. unfold INT_MAX. lia. }
  exists s0. split_and!; [done|done|].
  intros [s1 Hs1]. rewrite Hub in Hs1. discriminate Hs1.
Qed.

(** C3. Growth preserves contents, within the range of the [int]
    capacity: when [push] is called with size equal to capacity, on a
    stack created with a capacity of at least 1 and while twice the
    capacity is at most [INT_MAX], the capacity becomes twice the old one
    and the contents are the old contents, in their order, followed by
    the new element.  On a stack of capacity 2, [push(1)], [push(2)],
    [push(3)] grows the buffer to 4 and the pops return 3, 2, 1. *)
Theorem push_growth_preserves :
  (∀ (T : Type) (s : Stack T) (xs : list T) (v : T),
     reach s xs → size s = capacity s → 2 * capacity s ≤ INT_MAX →
     ∃ s', push v s = Ok () s'
           ∧ capacity s' = 2 * capacity s
           ∧ contents s = Some <$> xs
           ∧ contents s' = Some <$> (xs ++ [v])
           ∧ size s' = size s + 1)
  ∧ (∃ s0 s2 s3 s',
       new 2 = inr s0
       ∧ push_all [1; 2] s0 = Ok () s2
       ∧ size s2 = capacity s2
       ∧ push 3 s2 = Ok () s3
       ∧ capacity s3 = 4
       ∧ pop_n 3 s3 = Ok [3; 2; 1] s').
Proof.
  split.
  - intros T s xs v Hreach Hfull Hmax.
    apply stack_reach_rep in Hreach.
    destruct (push_spec s xs v Hreach) as (s' & Hp & Hrep' & Hcap);
      [by right|].
    exists s'. rewrite Hfull, Z.eqb_refl in Hcap.
    destruct Hreach as (_ & _ & Hsz & _ & Hc).
    destruct Hrep' as (_ & _ & Hsz' & _ & Hc').
    split_and!; try done.
    rewrite Hsz', Hsz, length_app. simpl. lia.
  - do 4 eexists. repeat (split; [reflexivity|]). reflexivity.
Qed.

Lemma push_growth_preserves_witness :
  ∃ s0 s1 s',
    new 1 = inr s0
    ∧ push 7 s0 = Ok () s1
    ∧ push 8 s1 = Ok () s'
    ∧ capacity s' = 2 * capacity s1
    ∧ contents s' = [Some 7; Some 8].
Proof.
  destruct (new_spec (T:=Z) 1) as (s0 & Hnew & Hrep0 & Hc0);
    [unfold INT_MAX; lia|].
  pose proof (reach_new 1 s0 ltac:(unfold INT_MAX; lia) Hnew) as Hr0.
  destruct (push_spec s0 [] 7 Hrep0) as (s1 & Hp1 & Hrep1 & Hc1);
    [right; rewrite Hc0; unfold INT_MAX; lia|].
  pose proof (reach_push _ _ _ _ Hr0 Hp1) as Hr1.
  assert (Hsz0 : size s0 = 0) by (destruct Hrep0 as (_ & _ & ? & _); done).
  rewrite Hsz0, Hc0 in Hc1. simpl in Hc1.
  assert (Hsz1 : size s1 = 1) by (destruct Hrep1 as (_ & _ & ? & _); done).
  destruct (proj1 push_growth_preserves Z s1 [7] 8 Hr1)
    as (s' & Hp & Hcap & _ & Hcont & _).
  - rewrite Hsz1, Hc1. reflexivity.
  - rewrite Hc1. unfold INT_MAX; lia.
  - exists s0, s1, s'. split_and!; done.
Defined.

(** C3 fails as stated, on a large enough stack: a stack created with
    capacity [2^30] and filled by [2^30] pushes has size equal to
    capacity, and the next [push] does not double the capacity:
    [capacity *= 2] overflows [int], which is undefined behaviour. *)
Lemma push_growth_fails_at_2_30 :
  ∃ s0 s : Stack Z,
    new 1073741824 = inr s0
    ∧ push_all (replicate (Z.to_nat 1073741824) 0) s0 = Ok () s
    ∧ size s = capacity s
    ∧ capacity s = 1073741824
    ∧ push 0 s = UB.
Proof.
  destruct (fill_to_capacity (T:=Z) 1073741824 0)
    as (s0 & s & Hnew & Hpush & Hrep & Hfull & Hcap);
    [unfold INT_MAX; lia|].
  exists s0, s. split_and!; [done|done|done|done|].
  apply (push_full_overflow s _ 0 Hrep Hfull).
  rewrite Hcap. unfold INT_MAX. lia.
Qed.

(** C9, as the code has it.  The constructor does not validate its
    argument: every capacity from 0 on (the default, 10, included) gives
    a new empty stack of that capacity, and a negative one makes the
    array allocation throw [bad_array_new_length]. *)
Theorem new_no_validation (T : Type) (c : Z) :
  (0 ≤ c →
   ∃ s : Stack T, new c = inr s ∧ size s = 0 ∧ isEmpty s = true
                  ∧ capacity s = c)
  ∧ (c < 0 → new (T:=T) c = inl bad_array_new_length)
  ∧ default_size = 10.
Proof.
  unfold new, new_array. split_and!.
  - intros Hc. destruct (Z.ltb_spec c 0); [lia|]. eexists. done.
  - intros Hc. destruct (Z.ltb_spec c 0); [done|lia].
  - done.
Qed.

Lemma new_no_validation_witness :
  (∃ s : Stack Z, new default_size = inr s ∧ size s = 0
                  ∧ isEmpty s = true ∧ capacity s = default_size)
  ∧ new (T:=Z) (-1) = inl bad_array_new_length.
Proof.
  split.
  - apply (proj1 (new_no_validation Z default_size)). unfold default_size. lia.
  - apply (proj1 (proj2 (new_no_validation Z (-1)))). lia.
Defined.

(** C9 fails as stated: creating a stack with initial capacity 0 does not
    fail; it returns an empty stack of capacity 0. *)
Lemma new_zero_succeeds :
  new (T:=Z) 0 = inr {| arr := []; topIndex := -1; capacity := 0 |}
  ∧ ¬ (∃ e, new (T:=Z) 0 = inl e).
Proof. split; [reflexivity|]. intros [e He]. discriminate He. Qed.

(** The scenario of the demonstration: capacity 5; push 10, 20, 30, 40,
    50; [peek] returns 50; two pops return 50 then 40; the size is 3. *)
Example stack_scenario :
  ∃ s0 s5 s3,
    new 5 = inr s0
    ∧ push_all [10; 20; 30; 40; 50] s0 = Ok () s5
    ∧ peek s5 = Ok 50 s5
    ∧ pop_n 2 s5 = Ok [50; 40] s3
    ∧ size s3 = 3.
Proof. do 3 eexists. repeat (split; [reflexivity|]). reflexivity. Qed.

(** The first [push] on a stack of capacity 0 writes outside of its empty
    buffer. *)
Lemma push_on_capacity_zero :
  push 1 {| arr := []; topIndex := -1; capacity := 0 |} = UB.
Proof. reflexivity. Qed.
End stack_claims.

(** * Queue<T>: proofs *)

Module QueueFacts.
Import Queue IntFacts.

Ltac int_lia := unfold INT_MAX, INT_MIN, size in *; lia.

#[local] Set Warnings "-clear-no-such-hyp".

Section facts.
Context {T : Type}.
Implicit Types (q : Queue T) (ls : list loc) (xs es : list T) (v : T).

Lemma new_rep : rep (T:=T) new [] [].
Proof.
  unfold rep, new; simpl. split_and!; try done. constructor.
Qed.

Lemma alloc_fresh q ls xs : rep q ls xs → alloc (heap q) ∉ ls.
Proof.
  intros (_ & _ & _ & _ & _ & _ & Hdom & _) Hin.
  apply (is_fresh (dom (heap q))). fold (alloc (heap q)).
  rewrite Hdom. by apply elem_of_list_to_set.
Qed.

(** [enqueue] appends a node to the chain, unless the count is at
    [INT_MAX]. *)
Lemma enqueue_cases q ls xs v :
  rep q ls xs →
  (count q < INT_MAX
   ∧ ∃ q', enqueue v q = Ok () q'
           ∧ rep q' (ls ++ [alloc (heap q)]) (xs ++ [v]))
  ∨ (count q = INT_MAX ∧ enqueue v q = UB).
Proof.
  intros Hrep. pose proof (alloc_fresh q ls xs Hrep) as Hfresh.
  destruct Hrep as (Hnd & Hlen & Hcnt & Hmax & Hf & Hr & Hdom & Hch).
  set (n := alloc (heap q)) in *.
  unfold enqueue. fold n.
  destruct ls as [|r ls _] using rev_ind.
  - (* empty queue *)
    destruct xs; [|done]. simpl in *.
    unfold isEmpty. rewrite Hf. simpl.
    left. split; [int_lia|].
    rewrite in_int_true by int_lia.
    eexists; split; [reflexivity|].
    unfold rep; simpl. split_and!; try done; try int_lia.
    + apply NoDup_singleton.
    + rewrite dom_insert_L, Hdom. set_solver.
    + intros [|i] l x Hl Hx; simplify_eq/=. by rewrite lookup_insert_eq.
  - (* the chain ends in [r] *)
    destruct xs as [|y xs _] using rev_ind.
    { rewrite length_app in Hlen. simpl in Hlen. int_lia. }
    rewrite !length_app in Hlen. simpl in Hlen.
    assert (Hlen' : length ls = length xs) by int_lia.
    rewrite last_snoc in Hr.
    assert (Hfr : ∃ f, frontPtr q = Some f).
    { rewrite Hf. destruct ls; simpl; eauto. }
    destruct Hfr as [f Hfr].
    unfold isEmpty. rewrite Hfr, Hr. simpl.
    assert (Hrn : r ≠ n).
    { intros ->. apply Hfresh. apply elem_of_app. right. by left. }
    rewrite lookup_insert_ne by done.
    rewrite (Hch (length ls) r y);
      [|by rewrite list_lookup_middle|by rewrite list_lookup_middle].
    simpl.
    rewrite length_app in Hcnt. simpl in Hcnt.
    destruct (decide (count q < INT_MAX)) as [Hlt|Hge].
    + left. split; [done|]. rewrite in_int_true by int_lia.
      eexists; split; [reflexivity|].
      unfold rep; simpl. split_and!.
      * apply NoDup_app. split; [done|]. split; [|apply NoDup_singleton].
        intros l Hl ->%list_elem_of_singleton. done.
      * rewrite !length_app. simpl. int_lia.
      * rewrite !length_app. simpl. int_lia.
      * int_lia.
      * rewrite Hfr in Hf. rewrite Hf. by destruct ls.
      * by rewrite last_snoc.
      * rewrite !dom_insert_L, Hdom, !list_to_set_app_L. set_solver.
      * intros i l x Hl Hx.
        destruct (decide (i = length (ls ++ [r]))) as [->|Hi].
        { rewrite list_lookup_middle in Hl by done.
          rewrite list_lookup_middle in Hx
            by (rewrite !length_app; simpl; int_lia).
          simplify_eq. rewrite lookup_insert_ne, lookup_insert_eq by done.
          f_equal. f_equal. symmetry. apply lookup_ge_None.
          rewrite !length_app. simpl. int_lia. }
        assert (Hi' : (i < length (ls ++ [r]))%nat).
        { apply lookup_lt_Some in Hl. rewrite !length_app in *.
          simpl in *. int_lia. }
        rewrite lookup_app_l in Hl by done.
        rewrite lookup_app_l in Hx by (rewrite !length_app in *; simpl in *; int_lia).
        destruct (decide (i = length ls)) as [->|Hi''].
        { rewrite list_lookup_middle in Hl by done.
          rewrite list_lookup_middle in Hx by done. simplify_eq.
          rewrite lookup_insert_eq. f_equal. f_equal.
          symmetry. apply list_lookup_middle.
          rewrite length_app. simpl. int_lia. }
        assert (l ≠ r).
        { intros ->. rewrite length_app in Hi'. simpl in Hi'.
          assert (Hr' : (ls ++ [r]) !! length ls = Some r)
            by (by apply list_lookup_middle).
          pose proof (NoDup_lookup _ _ _ _ Hnd Hl Hr'). int_lia. }
        assert (l ≠ n).
        { intros ->. apply Hfresh. by eapply list_elem_of_lookup_2. }
        rewrite !lookup_insert_ne by done.
        rewrite (Hch i l x Hl Hx). f_equal. f_equal.
        symmetry. apply lookup_app_l.
        rewrite length_app in *. simpl in *. int_lia.
    + right. split; [int_lia|]. rewrite in_int_above by int_lia. done.
Qed.

Lemma dequeue_spec q l ls x xs :
  rep q (l :: ls) (x :: xs) →
  ∃ q', dequeue q = Ok x q' ∧ rep q' ls xs.
Proof.
  intros (Hnd & Hlen & Hcnt & Hmax & Hf & Hr & Hdom & Hch).
  simpl in *. unfold dequeue, isEmpty. rewrite Hf. simpl.
  rewrite (Hch 0%nat l x) by done. simpl.
  rewrite in_int_true by int_lia.
  eexists; split; [reflexivity|].
  apply NoDup_cons in Hnd as [Hl Hnd].
  unfold rep; simpl. split_and!; try done; try int_lia.
  - by destruct ls.
  - destruct ls as [|l' ls]; [done|]. rewrite Hr. simpl. done.
  - rewrite dom_delete_L, Hdom. set_solver.
  - intros i l' x' Hl' Hx'.
    assert (l' ≠ l).
    { intros ->. apply Hl. by eapply list_elem_of_lookup_2. }
    rewrite lookup_delete_ne by done.
    apply (Hch (S i) l' x'); done.
Qed.

Lemma dequeue_empty q :
  isEmpty q = true →
  dequeue q
  = Throw (runtime_error "Queue Underflow: Cannot dequeue from empty queue") q.
Proof. intros He. unfold dequeue. rewrite He. done. Qed.

Lemma front_empty q :
  isEmpty q = true →
  front q = Throw (runtime_error "Queue is empty: Cannot access front") q.
Proof. intros He. unfold front. rewrite He. done. Qed.

Lemma rep_isEmpty q ls xs : rep q ls xs → isEmpty q = true ↔ count q = 0.
Proof.
  intros (Hnd & Hlen & Hcnt & Hmax & Hf & Hr & Hdom & Hch).
  unfold isEmpty. rewrite bool_decide_eq_true, Hf, Hcnt, <- Hlen.
  destruct ls; simpl; split; intros; try done; int_lia.
Qed.

Lemma enqueue_all_spec es :
  ∀ q ls xs, rep q ls xs → Z.of_nat (length xs + length es) ≤ INT_MAX →
    ∃ q' ls', enqueue_all es q = Ok () q' ∧ rep q' (ls ++ ls') (xs ++ es).
Proof.
  induction es as [|e es IH]; intros q ls xs Hrep Hlen.
  - exists q, []. rewrite !app_nil_r. done.
  - simpl in Hlen.
    destruct (enqueue_cases q ls xs e Hrep)
      as [(_ & q1 & He & Hrep1)|[Hmax _]].
    2:{ destruct Hrep as (_ & _ & Hcnt & _). int_lia. }
    destruct (IH q1 _ _ Hrep1) as (q' & ls' & Hes & Hrep').
    { rewrite length_app. simpl. int_lia. }
    exists q', (alloc (heap q) :: ls'). simpl. rewrite He. simpl.
    rewrite <- !(assoc_L (++)) in Hrep'. done.
Qed.

Lemma dequeue_n_spec xs :
  ∀ q ls ys, rep q ls (xs ++ ys) →
    ∃ q' ls', dequeue_n (length xs) q = Ok xs q' ∧ rep q' ls' ys.
Proof.
  induction xs as [|x xs IH]; intros q ls ys Hrep.
  - exists q, ls. done.
  - destruct ls as [|l ls].
    { destruct Hrep as (_ & Hlen & _). done. }
    destruct (dequeue_spec q l ls x (xs ++ ys) Hrep) as (q1 & Hd & Hrep1).
    destruct (IH q1 ls ys Hrep1) as (q' & ls' & Hds & Hrep').
    exists q', ls'. simpl. rewrite Hd. simpl. rewrite Hds. done.
Qed.

Lemma queue_reach_rep q : reach q → ∃ ls xs, rep q ls xs.
Proof.
  induction 1 as [|q v q' _ (ls & xs & IH) He|q v q' _ (ls & xs & IH) Hd
                 |q e q' _ (ls & xs & IH) Hd].
  - exists [], []. apply new_rep.
  - destruct (enqueue_cases q ls xs v IH) as [(_ & q1 & He1 & Hrep)|[_ Hub]];
      [|congruence].
    exists (ls ++ [alloc (heap q)]), (xs ++ [v]). congruence.
  - destruct ls as [|l ls].
    + rewrite dequeue_empty in Hd; [done|].
      apply (rep_isEmpty q [] xs IH).
      destruct IH as (_ & Hlen & Hcnt & _). rewrite Hcnt, <- Hlen. done.
    + destruct xs as [|x xs]; [destruct IH as (_ & ? & _); done|].
      destruct (dequeue_spec q l ls x xs IH) as (q1 & Hd1 & Hrep).
      exists ls, xs. congruence.
  - exists ls, xs. unfold dequeue in Hd.
    destruct (isEmpty q); [congruence|].
    destruct (frontPtr q); [|done]. destruct (heap q !! _); [|done].
    destruct (in_int _); done.
Qed.

Lemma follow_rep q ls xs :
  rep q ls xs →
  ∀ (k i : nat) l, ls !! i = Some l → follow (heap q) k l = ls !! (i + k)%nat.
Proof.
  intros (Hnd & Hlen & Hcnt & Hmax & Hf & Hr & Hdom & Hch).
  induction k as [|k IH]; intros i l Hl.
  - rewrite Nat.add_0_r. done.
  - destruct (xs !! i) as [x|] eqn:Hx.
    2:{ apply lookup_lt_Some in Hl. apply lookup_ge_None in Hx. int_lia. }
    simpl. rewrite (Hch i l x Hl Hx). simpl.
    destruct (ls !! S i) as [l'|] eqn:Hl'; simpl.
    + rewrite (IH (S i) l' Hl'). f_equal. int_lia.
    + symmetry. apply lookup_ge_None. apply lookup_ge_None in Hl'. int_lia.
Qed.
End facts.
End QueueFacts.

(** * Claims about the queue *)

Section queue_claims.
Import Queue QueueFacts.

(** C2. FIFO law: on a new queue, enqueueing [e1..en] and then
    dequeueing [n] times succeeds and returns [e1, .., en] in that order,
    for any element type; the queue is empty again afterwards.  [n] is
    within what the [int] count can hold. *)
Theorem queue_fifo (T : Type) (es : list T) :
  Z.of_nat (length es) ≤ INT_MAX →
  ∃ q1 q2,
    enqueue_all es new = Ok () q1
    ∧ dequeue_n (length es) q1 = Ok es q2
    ∧ isEmpty q2 = true
    ∧ size q2 = 0.
Proof.
  intros Hn.
  destruct (enqueue_all_spec es new [] [] new_rep) as (q1 & ls & He & Hrep1);
    [done|].
  simpl in Hrep1. rewrite <- (app_nil_r es) in Hrep1.
  destruct (dequeue_n_spec es q1 ls [] Hrep1) as (q2 & ls' & Hd & Hrep2).
  exists q1, q2. split_and!; try done.
  - apply (rep_isEmpty q2 ls' [] Hrep2). by destruct Hrep2 as (_ & _ & ? & _).
  - by destruct Hrep2 as (_ & _ & ? & _).
Qed.

Lemma queue_fifo_witness :
  ∃ q1 q2,
    enqueue_all [100; 200; 300] new = Ok () q1
    ∧ dequeue_n 3 q1 = Ok [100; 200; 300] q2
    ∧ isEmpty q2 = true
    ∧ size q2 = 0.
Proof.
  apply (queue_fifo Z [100; 200; 300]). unfold INT_MAX; simpl; lia.
Defined.

(** C5. Structural invariant: in every state a queue goes through, the
    front and rear pointers are both null exactly when the count is 0;
    otherwise both point to nodes, and following the next-links from the
    front node reaches the rear node after exactly [count - 1] links and
    not before; the rear node has no successor. *)
Theorem queue_invariant (T : Type) (q : Queue T) :
  reach q →
  ((frontPtr q = None ∧ rearPtr q = None) ↔ count q = 0)
  ∧ (count q ≠ 0 →
     ∃ f r, frontPtr q = Some f ∧ rearPtr q = Some r
            ∧ 0 < count q
            ∧ follow (heap q) (Z.to_nat (count q - 1)) f = Some r
            ∧ (∀ k : nat, (k < Z.to_nat (count q - 1))%nat →
                          follow (heap q) k f ≠ Some r)
            ∧ follow (heap q) (Z.to_nat (count q)) f = None).
Proof.
  intros (ls & xs & Hrep)%queue_reach_rep.
  pose proof (follow_rep q ls xs Hrep) as Hfol.
  destruct Hrep as (Hnd & Hlen & Hcnt & Hmax & Hf & Hr & Hdom & Hch).
  rewrite Hf, Hr, Hcnt, <- Hlen. split.
  - destruct ls as [|l ls]; simpl; [done|].
    split; [intros [? _]; done|lia].
  - intros Hne. destruct ls as [|f ls]; [done|].
    destruct (last (f :: ls)) as [r|] eqn:Hlast.
    2:{ apply last_None in Hlast. done. }
    exists f, r. split_and!; try done.
    + rewrite (Hfol _ 0%nat f) by done. rewrite last_lookup in Hlast.
      rewrite <- Hlast. f_equal. cbn [length]; lia.
    + intros k Hk Hfk. rewrite (Hfol _ 0%nat f) in Hfk by done.
      rewrite last_lookup in Hlast. cbn [length Nat.add] in *.
      pose proof (NoDup_lookup _ _ _ _ Hnd Hfk Hlast). lia.
    + rewrite (Hfol _ 0%nat f) by done. apply lookup_ge_None. cbn [length] in *; lia.
Qed.

Lemma queue_invariant_witness :
  ∃ q1 q2 : Queue Z,
    enqueue 100 new = Ok () q1
    ∧ enqueue 200 q1 = Ok () q2
    ∧ ∃ f r, frontPtr q2 = Some f ∧ rearPtr q2 = Some r
             ∧ follow (heap q2) (Z.to_nat (count q2 - 1)) f = Some r.
Proof.
  destruct (enqueue_cases new [] [] 100 new_rep)
    as [(_ & q1 & He1 & Hrep1)|[Hmax _]]; [|discriminate Hmax].
  destruct (enqueue_cases q1 _ _ 200 Hrep1)
    as [(_ & q2 & He2 & Hrep2)|[Hmax _]].
  2:{ destruct Hrep1 as (_ & _ & Hcnt & _). rewrite Hcnt in Hmax.
      discriminate Hmax. }
  exists q1, q2. split; [done|]. split; [done|].
  assert (Hreach : reach q2).
  { eapply reach_enqueue; [|exact He2].
    eapply reach_enqueue; [|exact He1]. constructor. }
  destruct (queue_invariant Z q2 Hreach) as [_ Hchain].
  destruct Hchain as (f & r & Hf & Hr & _ & Hfol & _).
  - destruct Hrep2 as (_ & _ & Hcnt & _). rewrite Hcnt. discriminate.
  - exists f, r. done.
Defined.

(** The scenario of the demonstration: enqueue 100, 200, 300; [front]
    returns 100; two dequeues return 100 then 200; the size is 1. *)
Example queue_scenario :
  ∃ q3 q1 : Queue Z,
    enqueue_all [100; 200; 300] new = Ok () q3
    ∧ front q3 = Ok 100 q3
    ∧ dequeue_n 2 q3 = Ok [100; 200] q1
    ∧ size q1 = 1.
Proof. do 2 eexists. repeat (split; [vm_compute; reflexivity|]). reflexivity. Qed.
End queue_claims.

(** * Arrays, order and stability: common facts *)

Module ArrayFacts.
Import Java.

(** Reduce a bind whose first computation has returned. *)
Ltac ret_bind := cbn [mbind result_bind mret result_ret].

(** Case analysis on the first comparison of the goal. *)
Ltac case_ltb :=
  match goal with |- context [?a <? ?b] => destruct (Z.ltb_spec a b) end.
Ltac case_leb :=
  match goal with |- context [?a <=? ?b] => destruct (Z.leb_spec a b) end.
Ltac case_gtb :=
  match goal with |- context [?a >? ?b] => destruct (Z.gtb_spec a b) end.
Ltac case_geb :=
  match goal with |- context [?a >=? ?b] => destruct (Z.geb_spec a b) end.
Ltac case_eqb :=
  match goal with |- context [?a =? ?b] => destruct (Z.eqb_spec a b) end.


Section facts.
Context {A : Type} (key : A → Z).
Implicit Types (arr l pre tail : list A) (x y : A) (i j : Z).

Lemma len_app l1 l2 : len (l1 ++ l2) = len l1 + len l2.
Proof. unfold len. rewrite length_app. lia. Qed.

Lemma len_cons x l : len (x :: l) = 1 + len l.
Proof. unfold len. simpl length. lia. Qed.

Lemma len_nil : len (@nil A) = 0.
Proof. reflexivity. Qed.

Lemma len_nonneg l : 0 ≤ len l.
Proof. unfold len. lia. Qed.

Lemma aget_middle l1 x l2 i :
  i = len l1 → aget (l1 ++ x :: l2) i = Done x.
Proof.
  intros ->. unfold aget. rewrite len_app, len_cons.
  pose proof (len_nonneg l1). pose proof (len_nonneg l2).
  destruct (Z.leb_spec 0 (len l1)); [|lia].
  destruct (Z.ltb_spec (len l1) (len l1 + (1 + len l2))); [|lia].
  simpl. unfold len. rewrite Nat2Z.id, list_lookup_middle; done.
Qed.

Lemma aset_middle l1 x l2 i v :
  i = len l1 → aset (l1 ++ x :: l2) i v = Done (l1 ++ v :: l2).
Proof.
  intros ->. unfold aset. rewrite len_app, len_cons.
  pose proof (len_nonneg l1). pose proof (len_nonneg l2).
  destruct (Z.leb_spec 0 (len l1)); [|lia].
  destruct (Z.ltb_spec (len l1) (len l1 + (1 + len l2))); [|lia].
  simpl. unfold len. rewrite Nat2Z.id.
  rewrite insert_app_r_alt, Nat.sub_diag by lia. done.
Qed.

(** The same, for an array given with its decomposition. *)
Lemma aget_at arr l1 x l2 i :
  arr = l1 ++ x :: l2 → i = len l1 → aget arr i = Done x.
Proof. intros -> ->. by apply aget_middle. Qed.

Lemma aset_at arr l1 x l2 i v :
  arr = l1 ++ x :: l2 → i = len l1 → aset arr i v = Done (l1 ++ v :: l2).
Proof. intros -> ->. by apply aset_middle. Qed.

Lemma aget_out arr i : ¬ (0 ≤ i < len arr) → aget arr i = Raise ArrayIndexOutOfBounds.
Proof.
  intros Hi. unfold aget.
  destruct (Z.leb_spec 0 i), (Z.ltb_spec i (len arr)); simpl; try done; lia.
Qed.

(** Exchanging two cells, the second one further right. *)
Lemma swap_apart l1 x l2 y l3 i j :
  i = len l1 → j = len l1 + 1 + len l2 →
  swap (l1 ++ x :: l2 ++ y :: l3) i j = Done (l1 ++ y :: l2 ++ x :: l3).
Proof.
  intros Hi Hj. unfold swap.
  rewrite (aget_middle l1 x _ i Hi). ret_bind.
  assert (Hj' : j = len (l1 ++ x :: l2))
    by (rewrite len_app, len_cons; lia).
  rewrite (app_comm_cons l2), (assoc_L (++)).
  rewrite (aget_middle _ y l3 j Hj'). ret_bind.
  rewrite <- (assoc_L (++)), <- app_comm_cons.
  rewrite (aset_middle l1 x _ i _ Hi). ret_bind.
  assert (Hj'' : j = len (l1 ++ y :: l2))
    by (rewrite len_app, len_cons; lia).
  rewrite (app_comm_cons l2), (assoc_L (++)).
  rewrite (aset_middle _ y l3 j _ Hj'').
  rewrite <- (assoc_L (++)), <- app_comm_cons. done.
Qed.

Lemma swap_adjacent l1 x y l2 i :
  i = len l1 →
  swap (l1 ++ x :: y :: l2) i (i + 1) = Done (l1 ++ y :: x :: l2).
Proof.
  intros Hi. apply (swap_apart l1 x [] y l2); [done|]. rewrite len_nil. lia.
Qed.

(** Exchanging a cell with itself. *)
Lemma swap_same l1 x l2 i :
  i = len l1 → swap (l1 ++ x :: l2) i i = Done (l1 ++ x :: l2).
Proof.
  intros Hi. unfold swap.
  rewrite (aget_middle l1 x _ i Hi). ret_bind.
  rewrite (aset_middle l1 x _ i _ Hi). ret_bind.
  by rewrite (aset_middle l1 x _ i _ Hi).
Qed.

(** The same, for an array given with its decomposition. *)
Lemma swap_at arr l1 x l2 y l3 i j :
  arr = l1 ++ x :: l2 ++ y :: l3 →
  i = len l1 → j = len l1 + 1 + len l2 →
  swap arr i j = Done (l1 ++ y :: l2 ++ x :: l3).
Proof. intros -> Hi Hj. by apply swap_apart. Qed.

Lemma swap_self arr l1 x l2 i j :
  arr = l1 ++ x :: l2 → i = len l1 → j = len l1 →
  swap arr i j = Done arr.
Proof. intros -> -> ->. by apply swap_same. Qed.

(** The midpoint computation, on a non-negative width. *)
Lemma half_bounds (m : Z) :
  0 ≤ m → m `quot` 2 = m `div` 2 ∧ 2 * (m `div` 2) ≤ m < 2 * (m `div` 2) + 2.
Proof.
  intros Hm. split; [apply Z.quot_div_nonneg; lia|].
  pose proof (Z.div_mod m 2 ltac:(lia)).
  pose proof (Z.mod_pos_bound m 2 ltac:(lia)). lia.
Qed.

(** ** Order *)

#[export] Instance key_le_trans : Transitive (key_le key).
Proof. intros x y z. unfold key_le. lia. Qed.

Lemma ssorted_sorted l : ssorted key l ↔ sorted key l.
Proof.
  split; [apply StronglySorted_Sorted|apply Sorted_StronglySorted, _].
Qed.

Lemma ssorted_nil : ssorted key [].
Proof. constructor. Qed.

Lemma ssorted_singleton x : ssorted key [x].
Proof. repeat constructor. Qed.

(** ** Stable rearrangement: a permutation that keeps elements of equal
    key in their order *)

Lemma sperm_refl l : sperm key l l.
Proof. split; [done|]. intros k. done. Qed.

Lemma sperm_trans l1 l2 l3 : sperm key l1 l2 → sperm key l2 l3 → sperm key l1 l3.
Proof.
  intros [Hp1 Hs1] [Hp2 Hs2]. split; [by rewrite Hp2|].
  intros k. by rewrite Hs2.
Qed.

Lemma sperm_app l1 l1' l2 l2' :
  sperm key l1 l1' → sperm key l2 l2' → sperm key (l1 ++ l2) (l1' ++ l2').
Proof.
  intros [Hp1 Hs1] [Hp2 Hs2]. split; [by rewrite Hp1, Hp2|].
  intros k. unfold with_key. rewrite !filter_app.
  f_equal; [apply Hs1|apply Hs2].
Qed.

Lemma sperm_cons x l l' : sperm key l l' → sperm key (x :: l) (x :: l').
Proof. intros H. apply (sperm_app [x] [x]); [apply sperm_refl|done]. Qed.

Lemma sperm_swap x y l : key x ≠ key y → sperm key (x :: y :: l) (y :: x :: l).
Proof.
  intros Hne. split; [apply perm_swap|].
  intros k. unfold with_key. rewrite !filter_cons.
  repeat case_decide; try done; congruence.
Qed.

(** Moving an element to the left past elements of other keys. *)
Lemma sperm_move x s :
  Forall (λ y, key y ≠ key x) s → sperm key (s ++ [x]) (x :: s).
Proof.
  induction 1 as [|y s Hy _ IH]; [apply sperm_refl|].
  simpl. eapply sperm_trans; [apply sperm_cons, IH|].
  apply sperm_swap. done.
Qed.
End facts.

(** Equal lists up to the bracketing of [++]. *)
Ltac list_eq :=
  repeat (progress (simpl; rewrite <- ?(assoc_L (++)))); done.

(** Lengths of the segments of an array. *)
Ltac norm_len := rewrite ?len_app, ?len_cons, ?len_nil.
Ltac len_lia :=
  rewrite ?len_app, ?len_cons, ?len_nil in *;
  repeat match goal with
         | |- context [len ?l] =>
             lazymatch goal with
             | _ : 0 ≤ len l |- _ => fail
             | _ => pose proof (len_nonneg l)
             end
         | _ : context [len ?l] |- _ =>
             lazymatch goal with
             | _ : 0 ≤ len l |- _ => fail
             | _ => pose proof (len_nonneg l)
             end
         end;
  lia.
(** Side conditions of the array lemmas. *)
Ltac side :=
  first [done | list_eq | len_lia | (simpl in *; lia)
        | (unfold len in *; rewrite ?length_app, ?length_replicate in *;
           simpl in *; lia)].
End ArrayFacts.

(** * Bubble sort *)

Module BubbleFacts.
Import Java ArrayFacts.

Section facts.
Context {A : Type} (key : A → Z).
Implicit Types (arr l pre tail rest : list A) (x y : A) (i j : Z).

Lemma bubble_inner_spec rest :
  ∀ (n : nat) pfx x tail sw,
    (length rest < n)%nat →
    bubble_inner key n (pfx ++ x :: rest ++ tail) (len tail) (len pfx) sw
    = Done (pfx ++ bubble key x rest ++ tail,
            sw || bubble_swaps key x rest).
Proof.
  induction rest as [|y rest IH]; intros n pfx x tail sw Hn;
    (destruct n as [|n]; [simpl in Hn; lia|]); cbn [bubble_inner];
    simpl app; norm_len; case_ltb; try len_lia.
  - simpl. by rewrite orb_false_r.
  - simpl in Hn.
    rewrite (aget_middle pfx x _ (len pfx)) by done. ret_bind.
    rewrite (cons_middle x pfx), (assoc_L (++)).
    rewrite (aget_middle (pfx ++ [x]) y _ (len pfx + 1)) by len_lia.
    ret_bind. rewrite <- (assoc_L (++)). simpl app.
    cbn [bubble bubble_swaps]. case_gtb.
    + rewrite (swap_adjacent pfx x y) by done. ret_bind.
      rewrite (cons_middle y pfx), (assoc_L (++)).
      replace (len pfx + 1) with (len (pfx ++ [y])) by len_lia.
      rewrite IH by lia. rewrite <- (assoc_L (++)). simpl.
      by rewrite orb_true_r.
    + rewrite (cons_middle x pfx), (assoc_L (++)).
      replace (len pfx + 1) with (len (pfx ++ [x])) by len_lia.
      rewrite IH by lia. rewrite <- (assoc_L (++)). done.
Qed.

Lemma bubble_sperm rest : ∀ x, sperm key (x :: rest) (bubble key x rest).
Proof.
  induction rest as [|y rest IH]; intros x; simpl; [apply sperm_refl|].
  destruct (Z.gtb_spec (key x) (key y)).
  - eapply sperm_trans; [apply sperm_swap; lia|].
    apply sperm_cons, IH.
  - apply sperm_cons, IH.
Qed.

(** A pass leaves a largest element last. *)
Lemma bubble_last rest :
  ∀ x, ∃ init m, bubble key x rest = init ++ [m]
                 ∧ Forall (λ a, key a ≤ key m) (x :: rest).
Proof.
  induction rest as [|y rest IH]; intros x; simpl.
  - exists [], x. split; [done|]. by repeat constructor.
  - destruct (Z.gtb_spec (key x) (key y)).
    + destruct (IH x) as (init & m & -> & [Hx Hrest]%Forall_cons).
      exists (y :: init), m. split; [done|].
      repeat constructor; try done. lia.
    + destruct (IH y) as (init & m & -> & [Hy Hrest]%Forall_cons).
      exists (x :: init), m. split; [done|].
      repeat constructor; try done. lia.
Qed.

(** A pass without exchange has gone over an ordered segment. *)
Lemma bubble_no_swaps rest :
  ∀ x, bubble_swaps key x rest = false →
       bubble key x rest = x :: rest ∧ ssorted key (x :: rest).
Proof.
  induction rest as [|y rest IH]; intros x; simpl.
  - intros _. split; [done|apply ssorted_singleton].
  - destruct (Z.gtb_spec (key x) (key y)); [done|].
    intros [-> Hs]%IH. split; [done|].
    apply Sorted_StronglySorted; [apply _|].
    constructor; [by apply StronglySorted_Sorted|].
    constructor. unfold key_le. lia.
Qed.

Lemma bubble_outer_spec gas (n : nat) :
  ∀ pre tail,
    (length pre < gas)%nat → (length pre ≤ n)%nat → (0 < n)%nat →
    ssorted key tail →
    (∀ a b, a ∈ pre → b ∈ tail → key a ≤ key b) →
    ∃ out, bubble_outer key gas n (pre ++ tail) (len tail) = Done out
           ∧ ssorted key out ∧ sperm key (pre ++ tail) out.
Proof.
  induction n as [|n IH]; intros pre tail Hgas Hn Hpos Htail Hle; [lia|].
  cbn [bubble_outer]. rewrite len_app.
  destruct (Z.ltb_spec (len tail) (len pre + len tail - 1)) as [Hlt|Hge].
  - destruct pre as [|x rest]; [rewrite len_nil in Hlt; lia|].
    simpl in Hgas, Hn. rewrite len_cons in Hlt.
    pose proof (bubble_inner_spec rest gas [] x tail false) as Hin.
    simpl app in Hin. rewrite len_nil in Hin.
    simpl app. rewrite Hin by lia. clear Hin. ret_bind.
    rewrite orb_false_l.
    destruct (bubble_swaps key x rest) eqn:Hsw; simpl negb; cbv iota.
    + destruct (bubble_last rest x) as (init & m & Hb & Hm).
      pose proof (bubble_sperm rest x) as Hsp. rewrite Hb in *.
      destruct Hsp as [Hperm Hstab].
      assert (Hlen : length (init ++ [m]) = length (x :: rest))
        by (by rewrite Hperm).
      rewrite length_app in Hlen. simpl in Hlen.
      rewrite <- (assoc_L (++)). simpl app.
      replace (len tail + 1) with (len (m :: tail)) by (rewrite len_cons; lia).
      destruct (IH init (m :: tail)) as (out & -> & Hsorted & Hsp).
      * lia.
      * lia.
      * destruct rest; [rewrite len_nil in Hlt; lia|]. simpl in Hn. lia.
      * apply StronglySorted_cons. split; [|done].
        apply Forall_forall. intros b Hb'. apply Hle; [|done].
        rewrite <- Hperm. set_solver.
      * intros a b Ha [->|Hb']%elem_of_cons.
        -- rewrite Forall_forall in Hm. apply Hm.
           rewrite <- Hperm. set_solver.
        -- apply Hle; [|done]. rewrite <- Hperm. set_solver.
      * exists out. split; [done|]. split; [done|].
        eapply sperm_trans; [|exact Hsp].
        rewrite (cons_middle m init tail), (assoc_L (++)).
        apply (sperm_app key (x :: rest) _ tail tail);
          [by split|apply sperm_refl].
    + destruct (bubble_no_swaps rest x Hsw) as [-> Hs].
      exists (x :: rest ++ tail). split; [done|]. split; [|apply sperm_refl].
      rewrite app_comm_cons. apply StronglySorted_app_2; done.
  - exists (pre ++ tail). split; [done|]. split; [|apply sperm_refl].
    apply StronglySorted_app_2; [done| |done].
    destruct pre as [|x [|y pre]]; [apply ssorted_nil|apply ssorted_singleton|].
    rewrite !len_cons in Hge. pose proof (len_nonneg pre). lia.
Qed.

Lemma bubbleSort_spec gas arr :
  (length arr < gas)%nat →
  ∃ out, bubbleSort key gas arr = Done out
         ∧ ssorted key out ∧ sperm key arr out.
Proof.
  intros Hgas. unfold bubbleSort.
  destruct (bubble_outer_spec gas gas arr []) as (out & Hout & Hs & Hp).
  - done.
  - lia.
  - lia.
  - apply ssorted_nil.
  - intros a b _ Hb. by apply not_elem_of_nil in Hb.
  - rewrite app_nil_r in *. exists out. done.
Qed.
End facts.
End BubbleFacts.

(** * Selection sort *)

Module SelectionFacts.
Import Java ArrayFacts.

Section facts.
Context {A : Type} (key : A → Z).
Implicit Types (arr l pre seg rest : list A) (x y a b : A) (i j m t : Z).

Lemma aget_lookup arr i x :
  0 ≤ i → arr !! Z.to_nat i = Some x → aget arr i = Done x.
Proof.
  intros Hi Hx. apply (aget_at arr (take (Z.to_nat i) arr) x
                         (drop (S (Z.to_nat i)) arr)).
  - symmetry. by apply take_drop_middle.
  - unfold len. rewrite length_take.
    apply lookup_lt_Some in Hx. lia.
Qed.

Lemma lookup_in_range arr i :
  0 ≤ i < len arr → ∃ x, arr !! Z.to_nat i = Some x.
Proof.
  intros Hi. apply lookup_lt_is_Some. unfold len in Hi. lia.
Qed.

(** The inner loop returns the index of a least element of the cells
    from [i] on. *)
Lemma selection_inner_spec arr i (n : nat) :
  ∀ j m b,
    0 ≤ i ≤ m → m < j ≤ len arr →
    (Z.to_nat (len arr - j) < n)%nat →
    arr !! Z.to_nat m = Some b →
    (∀ t a, i ≤ t < j → arr !! Z.to_nat t = Some a → key b ≤ key a) →
    ∃ m' b',
      selection_inner key n arr j m = Done m'
      ∧ i ≤ m' < len arr
      ∧ arr !! Z.to_nat m' = Some b'
      ∧ ∀ t a, i ≤ t < len arr → arr !! Z.to_nat t = Some a →
               key b' ≤ key a.
Proof.
  induction n as [|n IH]; intros j m b Him Hmj Hn Hb Hmin; [lia|].
  cbn [selection_inner]. case_ltb.
  - destruct (lookup_in_range arr j) as [aj Haj]; [lia|].
    rewrite (aget_lookup arr j aj) by (done || lia). ret_bind.
    rewrite (aget_lookup arr m b) by (done || lia). ret_bind.
    case_ltb.
    + apply (IH (j + 1) j aj); try done; try lia.
      intros t a Ht Ha. destruct (decide (t = j)) as [->|Hne].
      * simplify_eq. lia.
      * specialize (Hmin t a ltac:(lia) Ha). lia.
    + apply (IH (j + 1) m b); try done; try lia.
      intros t a Ht Ha. destruct (decide (t = j)) as [->|Hne].
      * simplify_eq. lia.
      * specialize (Hmin t a ltac:(lia) Ha). lia.
  - exists m, b. split; [done|]. split; [lia|]. split; [done|].
    intros t a Ht. apply Hmin. lia.
Qed.

Lemma selection_outer_spec gas (n : nat) :
  ∀ pre seg,
    (length (pre ++ seg) < gas)%nat → (length seg ≤ n)%nat → (0 < n)%nat →
    ssorted key pre →
    (∀ a b, a ∈ pre → b ∈ seg → key a ≤ key b) →
    ∃ out, selection_outer key gas n (pre ++ seg) (len pre) = Done out
           ∧ ssorted key out ∧ out ≡ₚ pre ++ seg.
Proof.
  induction n as [|n IH]; intros pre seg Hgas Hn Hpos Hpre Hle; [lia|].
  cbn [selection_outer]. norm_len. case_ltb.
  - destruct seg as [|x rest]; [len_lia|].
    destruct (selection_inner_spec (pre ++ x :: rest) (len pre) gas
                (len pre + 1) (len pre) x)
      as (m' & b' & -> & Hm' & Hb' & Hmin).
    { len_lia. }
    { len_lia. }
    { unfold len in *. rewrite length_app in *. simpl in *. lia. }
    { unfold len. rewrite Nat2Z.id. by apply list_lookup_middle. }
    { intros t a Ht Ha. assert (t = len pre) as -> by lia.
      unfold len in Ha. rewrite Nat2Z.id, list_lookup_middle in Ha by done.
      simplify_eq. lia. }
    ret_bind.
    assert (Hmin' : ∀ a, a ∈ x :: rest → key b' ≤ key a).
    { intros a [k Hk]%list_elem_of_lookup.
      apply (Hmin (len pre + Z.of_nat k) a).
      - apply lookup_lt_Some in Hk. unfold len.
        rewrite length_app. lia.
      - unfold len. replace (Z.to_nat (Z.of_nat (length pre) + Z.of_nat k))
          with (length pre + k)%nat by lia.
        by rewrite lookup_app_r, Nat.add_comm, Nat.add_sub by lia. }
    assert (Hstep : ∃ seg', swap (pre ++ x :: rest) (len pre) m'
                            = Done ((pre ++ [b']) ++ seg')
                            ∧ b' :: seg' ≡ₚ x :: rest).
    { destruct (decide (m' = len pre)) as [->|Hne].
      - unfold len in Hb'.
        rewrite Nat2Z.id, list_lookup_middle in Hb' by done. simplify_eq.
        exists rest. rewrite (swap_same pre b' rest) by done.
        split; [f_equal; list_eq|done].
      - assert (Hk : rest !! (Z.to_nat m' - length pre - 1)%nat = Some b').
        { rewrite lookup_app_r in Hb' by (unfold len in *; lia).
          rewrite lookup_cons_ne_0 in Hb' by (unfold len in *; lia).
          rewrite <- Hb'. f_equal. lia. }
        pose proof (take_drop_middle _ _ _ Hk) as Hsplit.
        set (l2 := take (Z.to_nat m' - length pre - 1) rest) in *.
        set (l3 := drop (S (Z.to_nat m' - length pre - 1)) rest) in *.
        exists (l2 ++ x :: l3). rewrite <- Hsplit.
        rewrite (swap_apart pre x l2 b' l3 (len pre) m').
        + split; [f_equal; list_eq|].
          rewrite <- (Permutation_middle l2 l3 x),
            <- (Permutation_middle l2 l3 b'). apply perm_swap.
        + done.
        + unfold len, l2. rewrite length_take.
          apply lookup_lt_Some in Hk. unfold len in *. lia. }
    destruct Hstep as (seg' & -> & Hperm). ret_bind.
    assert (Hlen : length seg' = length rest).
    { apply Permutation_length in Hperm. simpl in Hperm. lia. }
    replace (len pre + 1) with (len (pre ++ [b'])) by len_lia.
    destruct (IH (pre ++ [b']) seg') as (out & -> & Hso & Hpo).
    + rewrite !length_app in *. simpl in *. lia.
    + simpl in Hn. lia.
    + destruct rest; [len_lia|]. simpl in Hn. lia.
    + apply StronglySorted_app_2; [|done|apply ssorted_singleton].
      intros a b Ha ->%list_elem_of_singleton. apply Hle; [done|].
      rewrite <- Hperm. by left.
    + intros a b [Ha| ->%list_elem_of_singleton]%elem_of_app Hb.
      * apply Hle; [done|]. rewrite <- Hperm. by right.
      * apply Hmin'. rewrite <- Hperm. by right.
    + exists out. split; [done|]. split; [done|].
      rewrite Hpo, <- (assoc_L (++)). simpl. by rewrite Hperm.
  - exists (pre ++ seg). split; [done|]. split; [|done].
    apply StronglySorted_app_2; [done|done|].
    destruct seg as [|x [|y seg]];
      [apply ssorted_nil|apply ssorted_singleton|len_lia].
Qed.

Lemma selectionSort_spec gas arr :
  (length arr < gas)%nat →
  ∃ out, selectionSort key gas arr = Done out
         ∧ ssorted key out ∧ out ≡ₚ arr.
Proof.
  intros Hgas. unfold selectionSort.
  apply (selection_outer_spec gas gas [] arr); try done; try lia.
  - apply ssorted_nil.
  - intros a b Ha. by apply not_elem_of_nil in Ha.
Qed.
End facts.
End SelectionFacts.

(** * Insertion sort *)

Module InsertionFacts.
Import Java ArrayFacts.

Section facts.
Context {A : Type} (key : A → Z).
Implicit Types (arr l pre tail rest s : list A) (x y k g : A) (i j : Z).

(** The inner loop shifts the elements above [k] one cell to the right:
    it splits the segment before the hole into [p1], which stays, and
    [p2], which has moved. *)
Lemma insertion_inner_spec k rest pre :
  ∀ (n : nat) g s,
    (length pre < n)%nat →
    ∃ p1 p2 g',
      pre = p1 ++ p2
      ∧ Forall (λ y, key k < key y) p2
      ∧ (∀ a, last p1 = Some a → key a ≤ key k)
      ∧ insertion_inner key n (pre ++ g :: s ++ rest) k (len pre - 1)
        = Done (p1 ++ g' :: p2 ++ s ++ rest, len p1 - 1).
Proof.
  induction pre as [|a pre IH] using rev_ind; intros n g s Hn;
    (destruct n as [|n]; [lia|]); cbn [insertion_inner].
  - exists [], [], g. split_and!; done.
  - rewrite length_app in Hn. simpl in Hn.
    case_leb; [|len_lia].
    rewrite <- (assoc_L (++)). simpl app.
    rewrite (aget_middle pre a _ (len (pre ++ [a]) - 1)) by len_lia.
    ret_bind. case_gtb.
    + rewrite (aset_at _ (pre ++ [a]) g (s ++ rest) _ a) by (list_eq || len_lia).
      ret_bind. rewrite <- (assoc_L (++)). simpl app.
      destruct (IH n a (a :: s)) as (p1 & p2 & g' & -> & Hp2 & Hp1 & Hrun);
        [lia|].
      replace (len ((p1 ++ p2) ++ [a]) - 1 - 1) with (len (p1 ++ p2) - 1)
        by len_lia.
      simpl app in Hrun. rewrite Hrun.
      exists p1, (p2 ++ [a]), g'. split_and!.
      * by rewrite (assoc_L (++)).
      * apply Forall_app. split; [done|]. repeat constructor. lia.
      * done.
      * rewrite <- !(assoc_L (++)). done.
    + exists (pre ++ [a]), [], g. split_and!.
      * by rewrite app_nil_r.
      * constructor.
      * intros a'. rewrite last_snoc. intros [= <-]. lia.
      * rewrite <- (assoc_L (++)). done.
Qed.

(** Inserting [k] after the elements of an ordered segment that are not
    above it. *)
Lemma insert_ssorted p1 p2 k :
  ssorted key (p1 ++ p2) →
  Forall (λ y, key k < key y) p2 →
  (∀ a, last p1 = Some a → key a ≤ key k) →
  ssorted key (p1 ++ k :: p2).
Proof.
  intros Hs Hp2 Hp1. apply StronglySorted_app in Hs as (H12 & Hs1 & Hs2).
  assert (Hall : ∀ a, a ∈ p1 → key a ≤ key k).
  { intros a Ha. destruct p1 as [|b p1 _] using rev_ind;
      [by apply not_elem_of_nil in Ha|].
    specialize (Hp1 b). rewrite last_snoc in Hp1. specialize (Hp1 eq_refl).
    apply elem_of_app in Ha as [Ha| ->%list_elem_of_singleton]; [|done].
    apply StronglySorted_app in Hs1 as (Hab & _ & _).
    specialize (Hab a b Ha). unfold key_le in Hab.
    etrans; [apply Hab; set_solver|done]. }
  apply StronglySorted_app_2; [|done|].
  - intros a b Ha [->|Hb]%elem_of_cons; [by apply Hall|].
    by apply H12.
  - apply StronglySorted_cons. split; [|done].
    eapply Forall_impl; [exact Hp2|]. intros y Hy. unfold key_le. simpl in Hy. lia.
Qed.

Lemma insert_sperm p1 p2 k :
  Forall (λ y, key k < key y) p2 →
  sperm key ((p1 ++ p2) ++ [k]) (p1 ++ k :: p2).
Proof.
  intros Hp2. rewrite <- (assoc_L (++)).
  apply sperm_app; [apply sperm_refl|].
  apply sperm_move. eapply Forall_impl; [exact Hp2|]. intros y Hy.
  simpl in Hy. lia.
Qed.

Lemma insertion_outer_spec gas (n : nat) :
  ∀ pre rest,
    (length (pre ++ rest) < gas)%nat → (length rest < n)%nat →
    ssorted key pre →
    ∃ out, insertion_outer key gas n (pre ++ rest) (len pre) = Done out
           ∧ ssorted key out ∧ sperm key (pre ++ rest) out.
Proof.
  induction n as [|n IH]; intros pre rest Hgas Hn Hpre; [lia|].
  cbn [insertion_outer]. norm_len. case_ltb.
  - destruct rest as [|k rest]; [len_lia|].
    rewrite length_app in Hgas. simpl in Hgas, Hn.
    rewrite (aget_middle pre k rest (len pre)) by done. ret_bind.
    destruct (insertion_inner_spec k rest pre gas k [])
      as (p1 & p2 & g' & -> & Hp2 & Hp1 & Hrun); [lia|].
    simpl app in Hrun. rewrite Hrun. ret_bind.
    rewrite (aset_middle p1 g') by len_lia. ret_bind.
    pose proof (insert_ssorted p1 p2 k Hpre Hp2 Hp1) as Hs.
    pose proof (insert_sperm p1 p2 k Hp2) as Hsp.
    replace (p1 ++ k :: p2 ++ rest) with ((p1 ++ [k] ++ p2) ++ rest)
      by list_eq.
    replace (len (p1 ++ p2) + 1) with (len (p1 ++ [k] ++ p2)) by len_lia.
    destruct (IH (p1 ++ [k] ++ p2) rest) as (out & -> & Hso & Hspo).
    + rewrite !length_app in *. simpl. lia.
    + lia.
    + done.
    + exists out. split; [done|]. split; [done|].
      eapply sperm_trans; [|exact Hspo].
      replace ((p1 ++ p2) ++ k :: rest) with (((p1 ++ p2) ++ [k]) ++ rest)
        by list_eq.
      apply sperm_app; [done|apply sperm_refl].
  - exists (pre ++ rest). split; [done|].
    assert (rest = []) as -> by (destruct rest; [done|len_lia]).
    rewrite app_nil_r. split; [done|apply sperm_refl].
Qed.

Lemma insertionSort_spec gas arr :
  (length arr < gas)%nat →
  ∃ out, insertionSort key gas arr = Done out
         ∧ ssorted key out ∧ sperm key arr out.
Proof.
  intros Hgas. unfold insertionSort. destruct arr as [|x arr].
  - destruct gas; [simpl in Hgas; lia|]. exists []. simpl.
    split; [done|]. split; [apply ssorted_nil|apply sperm_refl].
  - apply (insertion_outer_spec gas gas [x] arr); [done|simpl in *; lia|].
    apply ssorted_singleton.
Qed.
End facts.
End InsertionFacts.

(** * Merge sort *)

Module MergeFacts.
Import Java ArrayFacts.

Section facts.
Context {A : Type} (key : A → Z) (zero : A).
Implicit Types (arr l a c seg todo junk src dst : list A) (x y : A).
Implicit Types (i j k left mid right : Z).

#[local] Instance key_le_total : Total (key_le key).
Proof. intros x y. unfold key_le. lia. Qed.

Lemma new_array_spec n :
  0 ≤ n → new_array zero n = Done (replicate (Z.to_nat n) zero).
Proof. intros Hn. unfold new_array. case_ltb; [lia|done]. Qed.

Lemma copy_range_spec s0 s1 todo :
  ∀ (n : nat) cp junk dst src off cnt i,
    dst = cp ++ junk → length junk = length todo →
    src = s0 ++ cp ++ todo ++ s1 →
    off = len s0 → cnt = len cp + len todo → i = len cp →
    (length todo < n)%nat →
    copy_range n dst src off cnt i = Done (cp ++ todo).
Proof.
  induction todo as [|x todo IH];
    intros n cp junk dst src off cnt i -> Hjunk -> -> -> -> Hn;
    (destruct n as [|n]; [simpl in Hn; lia|]); cbn [copy_range];
    case_ltb; try len_lia.
  - destruct junk; [|done]. done.
  - destruct junk as [|g junk]; [done|]. simpl in Hjunk, Hn.
    rewrite (aget_at _ (s0 ++ cp) x (todo ++ s1)) by (list_eq || len_lia).
    ret_bind.
    rewrite (aset_at _ cp g junk _ x) by (list_eq || len_lia). ret_bind.
    rewrite (IH n (cp ++ [x]) junk (cp ++ x :: junk)
               (s0 ++ cp ++ (x :: todo) ++ s1) (len s0)
               (len cp + len (x :: todo)) (len cp + 1));
      try done; try len_lia; try list_eq.
Qed.

Lemma merge_rest_spec todo :
  ∀ (n : nat) sdone src arr p junk c cnt i k,
    src = sdone ++ todo → arr = p ++ junk ++ c →
    length junk = length todo →
    cnt = len src → i = len sdone → k = len p →
    (length todo < n)%nat →
    merge_rest n arr src cnt i k = Done (p ++ todo ++ c, k + len todo).
Proof.
  induction todo as [|x todo IH];
    intros n sdone src arr p junk c cnt i k -> -> Hjunk -> -> -> Hn;
    (destruct n as [|n]; [simpl in Hn; lia|]); cbn [merge_rest];
    case_ltb; try len_lia.
  - destruct junk; [|done]. simpl. do 2 f_equal. len_lia.
  - destruct junk as [|g junk]; [done|]. simpl in Hjunk, Hn.
    rewrite (aget_at _ sdone x todo) by (list_eq || len_lia). ret_bind.
    rewrite (aset_at _ p g (junk ++ c) _ x) by (list_eq || len_lia).
    ret_bind.
    rewrite (IH n (sdone ++ [x]) (sdone ++ x :: todo)
               (p ++ x :: junk ++ c) (p ++ [x]) junk c
               (len (sdone ++ x :: todo)) (len sdone + 1) (len p + 1));
      try done; try len_lia; try list_eq; try lia.
    f_equal. f_equal; [list_eq|len_lia].
Qed.

(** The three loops of [merge], from any state of the first one. *)
Lemma merge_loops_spec gas a c (n : nat) :
  ∀ ltodo rtodo ldone rdone L R arr merged junk n1 n2 i j k,
    L = ldone ++ ltodo → R = rdone ++ rtodo →
    arr = a ++ merged ++ junk ++ c →
    length junk = (length ltodo + length rtodo)%nat →
    n1 = len L → n2 = len R →
    i = len ldone → j = len rdone → k = len a + len merged →
    (length ltodo + length rtodo < n)%nat →
    (length ltodo < gas)%nat → (length rtodo < gas)%nat →
    ('(arr1, i', j', k') ← merge_both key n arr L R n1 n2 i j k;
     '(arr2, k2) ← merge_rest gas arr1 L n1 i' k';
     '(arr3, _) ← merge_rest gas arr2 R n2 j' k2;
     Done arr3)
    = Done (a ++ merged ++ merge_lists key ltodo rtodo ++ c).
Proof.
  unfold merge_lists.
  induction n as [|n IH];
    intros ltodo rtodo ldone rdone L R arr merged junk n1 n2 i j k
      -> -> -> Hjunk -> -> -> -> -> Hn Hgl Hgr; [lia|].
  cbn [merge_both].
  destruct ltodo as [|x ltodo]; [|destruct rtodo as [|y rtodo]].
  - (* the left run is used up *)
    case_ltb; [len_lia|]. simpl andb. cbv iota. ret_bind.
    rewrite (merge_rest_spec [] gas ldone (ldone ++ []) _ (a ++ merged) []
               (junk ++ c)) by side.
    ret_bind.
    rewrite (merge_rest_spec rtodo gas rdone (rdone ++ rtodo) _
               (a ++ merged) junk c) by side.
    ret_bind. rewrite list_merge_nil_l. f_equal. list_eq.
  - (* the right run is used up *)
    case_ltb; [|len_lia]. case_ltb; [len_lia|]. simpl andb. cbv iota.
    ret_bind.
    rewrite (merge_rest_spec (x :: ltodo) gas ldone (ldone ++ x :: ltodo) _
               (a ++ merged) junk c) by side.
    ret_bind.
    rewrite (merge_rest_spec [] gas rdone (rdone ++ []) _
               (a ++ merged ++ x :: ltodo) [] c) by side.
    ret_bind. rewrite list_merge_nil_r. f_equal. list_eq.
  - case_ltb; [|len_lia]. case_ltb; [|len_lia]. simpl andb. cbv iota.
    rewrite (aget_at (ldone ++ x :: ltodo) ldone x ltodo (len ldone)) by side.
    rewrite (aget_at (rdone ++ y :: rtodo) rdone y rtodo (len rdone)) by side.
    ret_bind. simpl in Hjunk, Hn, Hgl, Hgr.
    destruct junk as [|g junk]; [done|]. simpl in Hjunk.
    rewrite list_merge_cons.
    case_leb.
    + rewrite (aset_at _ (a ++ merged) g (junk ++ c) _ x) by side.
      rewrite decide_True by done. ret_bind.
      rewrite (IH ltodo (y :: rtodo) (ldone ++ [x]) rdone
                 (ldone ++ x :: ltodo) (rdone ++ y :: rtodo) _
                 (merged ++ [x]) junk) by side.
      f_equal. list_eq.
    + rewrite (aset_at _ (a ++ merged) g (junk ++ c) _ y) by side.
      rewrite decide_False by (unfold key_le; lia). ret_bind.
      rewrite (IH (x :: ltodo) rtodo ldone (rdone ++ [y])
                 (ldone ++ x :: ltodo) (rdone ++ y :: rtodo) _
                 (merged ++ [y]) junk) by side.
      f_equal. list_eq.
Qed.

Lemma merge_spec gas a la lb c arr left mid right :
  arr = a ++ la ++ lb ++ c →
  left = len a → mid = len a + len la - 1 →
  right = len a + len la + len lb - 1 →
  (length la + length lb < gas)%nat →
  merge key zero gas arr left mid right
  = Done (a ++ merge_lists key la lb ++ c).
Proof.
  intros -> -> -> -> Hgas. unfold merge. cbv zeta.
  replace (len a + len la - 1 - len a + 1) with (len la) by lia.
  replace (len a + len la + len lb - 1 - (len a + len la - 1))
    with (len lb) by lia.
  rewrite !new_array_spec by apply len_nonneg. ret_bind.
  rewrite (copy_range_spec a (lb ++ c) la gas []
             (replicate (Z.to_nat (len la)) zero)
             (replicate (Z.to_nat (len la)) zero)
             (a ++ la ++ lb ++ c) (len a) (len la) 0) by side.
  ret_bind.
  rewrite (copy_range_spec (a ++ la) c lb gas []
             (replicate (Z.to_nat (len lb)) zero)
             (replicate (Z.to_nat (len lb)) zero)
             (a ++ la ++ lb ++ c) (len a + len la - 1 + 1) (len lb) 0)
    by side.
  ret_bind. simpl app.
  rewrite (merge_loops_spec gas a c gas la lb [] [] la lb
             (a ++ la ++ lb ++ c) [] (la ++ lb) (len la) (len lb) 0 0 (len a))
    by side.
  done.
Qed.

(** Merging two ordered runs gives an ordered run, and is a stable
    rearrangement of the two runs one after the other. *)
Lemma merge_lists_ssorted la lb :
  ssorted key la → ssorted key lb → ssorted key (merge_lists key la lb).
Proof.
  intros Ha Hb. apply Sorted_StronglySorted; [apply _|].
  apply Sorted_list_merge; [apply _|by apply StronglySorted_Sorted..].
Qed.

Lemma merge_lists_sperm la :
  ∀ lb, ssorted key la → sperm key (la ++ lb) (merge_lists key la lb).
Proof.
  unfold merge_lists.
  induction la as [|x la IHa]; intros lb Hs.
  { rewrite list_merge_nil_l. apply sperm_refl. }
  induction lb as [|y lb IHb].
  { rewrite list_merge_nil_r, app_nil_r. apply sperm_refl. }
  rewrite list_merge_cons. case_decide as Hxy.
  - apply (sperm_cons key x). apply IHa.
    by apply StronglySorted_cons in Hs as [_ ?].
  - eapply sperm_trans; [|apply sperm_cons, IHb].
    replace ((x :: la) ++ y :: lb) with (((x :: la) ++ [y]) ++ lb)
      by list_eq.
    apply (sperm_app key _ (y :: x :: la) lb lb); [|apply sperm_refl].
    apply sperm_move.
    apply StronglySorted_cons in Hs as [Hx _].
    constructor; [unfold key_le in Hxy; lia|].
    eapply Forall_impl; [exact Hx|]. intros z Hz.
    unfold key_le in *. lia.
Qed.

Lemma mergeSort_rec_spec gas (n : nat) :
  ∀ a seg c arr left right,
    arr = a ++ seg ++ c →
    left = len a → right = len a + len seg - 1 →
    (length seg < n)%nat → (length seg < gas)%nat →
    ∃ out, mergeSort_rec key zero gas n arr left right = Done (a ++ out ++ c)
           ∧ ssorted key out ∧ sperm key seg out.
Proof.
  induction n as [|n IH]; intros a seg c arr left right -> -> -> Hn Hgas;
    [lia|].
  cbn [mergeSort_rec]. case_geb.
  - exists seg. split; [done|]. split; [|apply sperm_refl].
    destruct seg as [|x [|y seg]];
      [apply ssorted_nil|apply ssorted_singleton|len_lia].
  - cbv zeta.
    replace (len a + len seg - 1 - len a) with (len seg - 1) by lia.
    destruct (half_bounds (len seg - 1)) as [-> Hhalf]; [lia|].
    set (q := (len seg - 1) `div` 2) in *.
    set (h := Z.to_nat (q + 1)).
    assert (Hh : (0 < h < length seg)%nat).
    { unfold h, len in *. lia. }
    pose proof (take_drop h seg) as Hsplit.
    set (la := take h seg) in *. set (lb := drop h seg) in *.
    assert (Hla : length la = h) by (unfold la; rewrite length_take; lia).
    assert (Hlb : length lb = (length seg - h)%nat)
      by (unfold lb; by rewrite length_drop).
    assert (Hmid : len a + q = len a + len la - 1).
    { unfold len. rewrite Hla. unfold h. unfold len in *. lia. }
    rewrite Hmid.
    destruct (IH a la (lb ++ c) (a ++ seg ++ c) (len a)
                (len a + len la - 1))
      as (o1 & -> & Hs1 & Hp1); try done; try lia.
    { rewrite <- Hsplit. list_eq. }
    ret_bind.
    assert (Hlen1 : len o1 = len la).
    { destruct Hp1 as [Hp1 _]. apply Permutation_length in Hp1.
      unfold len. lia. }
    destruct (IH (a ++ o1) lb c (a ++ o1 ++ lb ++ c)
                (len a + len la - 1 + 1) (len a + len seg - 1))
      as (o2 & -> & Hs2 & Hp2); try done; try lia; try list_eq.
    { len_lia. }
    { rewrite len_app, Hlen1. unfold len. rewrite <- Hsplit, length_app. lia. }
    ret_bind.
    assert (Hlen2 : len o2 = len lb).
    { destruct Hp2 as [Hp2 _]. apply Permutation_length in Hp2.
      unfold len. lia. }
    rewrite (merge_spec gas a o1 o2 c); try done; try list_eq.
    + exists (merge_lists key o1 o2). split; [done|].
      split; [by apply merge_lists_ssorted|].
      eapply sperm_trans; [|by apply merge_lists_sperm].
      rewrite <- Hsplit. by apply sperm_app.
    + lia.
    + rewrite Hlen1, Hlen2. unfold len. rewrite <- Hsplit, length_app. lia.
    + unfold len in Hlen1, Hlen2. lia.
Qed.

Lemma mergeSort_spec gas arr :
  (length arr < gas)%nat →
  ∃ out, mergeSort key zero gas arr = Done out
         ∧ ssorted key out ∧ sperm key arr out.
Proof.
  intros Hgas. unfold mergeSort. case_leb.
  - exists arr. split; [done|]. split; [|apply sperm_refl].
    destruct arr as [|x [|y arr]];
      [apply ssorted_nil|apply ssorted_singleton|len_lia].
  - destruct (mergeSort_rec_spec gas gas [] arr [] arr 0 (len arr - 1))
      as (out & Hrun & Hs & Hp); try done; try len_lia.
    + by rewrite app_nil_r.
    + exists out. simpl in Hrun. rewrite app_nil_r in Hrun. done.
Qed.
End facts.
End MergeFacts.

(** * Quick sort *)

Module QuickFacts.
Import Java ArrayFacts.

Section facts.
Context {A : Type} (key : A → Z).
Implicit Types (arr l a c seg small big todo : list A) (x y pivot : A).
Implicit Types (i j low high : Z).

(** The partition loop keeps the range as [small ++ big ++ todo]: the
    elements not above the pivot, the elements above it, and the ones
    still to be looked at. *)
Lemma partition_loop_spec pivot a c todo :
  ∀ (n : nat) small big arr high i j,
    arr = a ++ small ++ big ++ todo ++ pivot :: c →
    high = len a + len small + len big + len todo →
    i = len a + len small - 1 →
    j = len a + len small + len big →
    (length todo < n)%nat →
    Forall (λ y, key y ≤ key pivot) small →
    Forall (λ y, key pivot < key y) big →
    ∃ small' big',
      partition_loop key n arr pivot high i j
      = Done (a ++ small' ++ big' ++ pivot :: c, len a + len small' - 1)
      ∧ small' ++ big' ≡ₚ small ++ big ++ todo
      ∧ Forall (λ y, key y ≤ key pivot) small'
      ∧ Forall (λ y, key pivot < key y) big'.
Proof.
  induction todo as [|x todo IH];
    intros n small big arr high i j -> -> -> -> Hn Hsmall Hbig;
    (destruct n as [|n]; [simpl in Hn; lia|]); cbn [partition_loop];
    case_ltb; try len_lia.
  - exists small, big. rewrite !app_nil_r. simpl. done.
  - simpl in Hn.
    rewrite (aget_at _ (a ++ small ++ big) x (todo ++ pivot :: c))
      by (list_eq || len_lia).
    ret_bind. case_leb.
    + assert (Hswap : swap (a ++ small ++ big ++ (x :: todo) ++ pivot :: c)
                        (len a + len small - 1 + 1)
                        (len a + len small + len big)
                      = Done (a ++ (small ++ [x]) ++ tail (big ++ take 1 big)
                                ++ todo ++ pivot :: c)).
      { destruct big as [|b big].
        - rewrite (swap_self _ (a ++ small) x (todo ++ pivot :: c))
            by (list_eq || len_lia).
          f_equal. list_eq.
        - rewrite (swap_at _ (a ++ small) b big x (todo ++ pivot :: c))
            by (list_eq || len_lia).
          f_equal. list_eq. }
      rewrite Hswap. ret_bind.
      assert (Hbig' : tail (big ++ take 1 big) ≡ₚ big).
      { destruct big as [|b big]; [done|]. simpl.
        by rewrite <- Permutation_cons_append. }
      assert (Hlb : len (tail (big ++ take 1 big)) = len big)
        by (unfold len; by rewrite Hbig').
      destruct (IH n (small ++ [x]) (tail (big ++ take 1 big))
                  (a ++ (small ++ [x]) ++ tail (big ++ take 1 big)
                     ++ todo ++ pivot :: c)
                  (len a + len small + len big + len (x :: todo))
                  (len a + len small - 1 + 1)
                  (len a + len small + len big + 1))
        as (small' & big' & -> & Hperm & Hs' & Hb').
      * done.
      * rewrite Hlb. len_lia.
      * len_lia.
      * rewrite Hlb. len_lia.
      * lia.
      * apply Forall_app. split; [done|]. by repeat constructor.
      * by rewrite Hbig'.
      * exists small', big'. split; [done|]. split; [|done].
        rewrite Hperm, Hbig'. rewrite <- !(assoc_L (++)). simpl.
        by rewrite <- (Permutation_middle big todo x).
    + destruct (IH n small (big ++ [x])
                  (a ++ small ++ big ++ (x :: todo) ++ pivot :: c)
                  (len a + len small + len big + len (x :: todo))
                  (len a + len small - 1)
                  (len a + len small + len big + 1))
        as (small' & big' & -> & Hperm & Hs' & Hb');
        try done; try len_lia; try list_eq.
      * apply Forall_app. split; [done|]. repeat constructor. lia.
      * exists small', big'. split; [done|]. split; [|done].
        rewrite Hperm. rewrite <- !(assoc_L (++)). done.
Qed.

Lemma partition_spec gas a seg pivot c arr low high :
  arr = a ++ seg ++ pivot :: c →
  low = len a → high = len a + len seg →
  (length seg < gas)%nat →
  ∃ small big,
    partition key gas arr low high
    = Done (a ++ small ++ pivot :: big ++ c, len a + len small)
    ∧ small ++ big ≡ₚ seg
    ∧ Forall (λ y, key y ≤ key pivot) small
    ∧ Forall (λ y, key pivot < key y) big.
Proof.
  intros -> -> -> Hgas. unfold partition.
  rewrite (aget_at _ (a ++ seg) pivot c) by (list_eq || len_lia). ret_bind.
  destruct (partition_loop_spec pivot a c seg gas [] []
              (a ++ seg ++ pivot :: c) (len a + len seg)
              (len a - 1) (len a))
    as (small & big & -> & Hperm & Hs & Hb);
    try done; try len_lia.
  ret_bind. simpl in Hperm.
  assert (Hswap : ∃ big', swap (a ++ small ++ big ++ pivot :: c)
                            (len a + len small - 1 + 1) (len a + len seg)
                          = Done (a ++ small ++ pivot :: big' ++ c)
                            ∧ big' ≡ₚ big).
  { assert (Hlen : len seg = len small + len big).
    { apply Permutation_length in Hperm. rewrite length_app in Hperm.
      unfold len. lia. }
    destruct big as [|b big].
    - exists []. split; [|done].
      rewrite (swap_self _ (a ++ small) pivot c) by (list_eq || len_lia).
      done.
    - exists (big ++ [b]). split; [|by rewrite <- Permutation_cons_append].
      rewrite (swap_at _ (a ++ small) b big pivot c) by (list_eq || len_lia).
      f_equal. list_eq. }
  destruct Hswap as (big' & -> & Hbig'). ret_bind.
  exists small, big'. split; [do 2 f_equal; lia|].
  split; [by rewrite Hbig'|]. split; [done|]. by rewrite Hbig'.
Qed.

Lemma quickSort_rec_spec gas (n : nat) :
  ∀ a seg c arr low high,
    arr = a ++ seg ++ c →
    low = len a → high = len a + len seg - 1 →
    (length seg < n)%nat → (length seg < gas)%nat →
    ∃ out, quickSort_rec key gas n arr low high = Done (a ++ out ++ c)
           ∧ ssorted key out ∧ out ≡ₚ seg.
Proof.
  induction n as [|n IH]; intros a seg c arr low high -> -> -> Hn Hgas;
    [lia|].
  cbn [quickSort_rec]. case_ltb.
  - destruct seg as [|pivot seg _] using rev_ind; [len_lia|].
    rewrite length_app in Hn, Hgas. simpl in Hn, Hgas.
    destruct (partition_spec gas a seg pivot c
                (a ++ (seg ++ [pivot]) ++ c) (len a)
                (len a + len (seg ++ [pivot]) - 1))
      as (small & big & -> & Hperm & Hs & Hb);
      try done; try len_lia; try list_eq.
    ret_bind.
    assert (Hlen : length seg = (length small + length big)%nat).
    { apply Permutation_length in Hperm. by rewrite length_app in Hperm. }
    destruct (IH a small (pivot :: big ++ c)
                (a ++ small ++ pivot :: big ++ c) (len a)
                (len a + len small - 1))
      as (s1 & -> & Hs1 & Hp1); try done; try lia.
    ret_bind.
    assert (Hlen1 : len s1 = len small).
    { apply Permutation_length in Hp1. unfold len. lia. }
    destruct (IH (a ++ s1 ++ [pivot]) big c
                (a ++ s1 ++ pivot :: big ++ c) (len a + len small + 1)
                (len a + len (seg ++ [pivot]) - 1))
      as (b1 & -> & Hb1 & Hpb); try done; try lia; try list_eq.
    { len_lia. }
    { unfold len in *. rewrite !length_app in *. simpl. lia. }
    exists (s1 ++ pivot :: b1). split; [f_equal; list_eq|]. split.
    + apply StronglySorted_app_2; [|done|].
      * intros x y Hx [->|Hy]%elem_of_cons.
        -- rewrite Hp1 in Hx. rewrite Forall_forall in Hs. by apply Hs.
        -- rewrite Hp1 in Hx. rewrite Hpb in Hy.
           rewrite Forall_forall in Hs, Hb.
           specialize (Hs x Hx). specialize (Hb y Hy).
           unfold key_le. simpl in *. lia.
      * apply StronglySorted_cons. split; [|done].
        rewrite Hpb. eapply Forall_impl; [exact Hb|].
        intros y Hy. unfold key_le. simpl in Hy. lia.
    + rewrite Hp1, Hpb, <- Hperm, <- Permutation_middle.
      apply Permutation_cons_append.
  - exists seg. split; [done|]. split; [|done].
    destruct seg as [|x [|y seg]];
      [apply ssorted_nil|apply ssorted_singleton|len_lia].
Qed.

Lemma quickSort_spec gas arr :
  (length arr < gas)%nat →
  ∃ out, quickSort key gas arr = Done out
         ∧ ssorted key out ∧ out ≡ₚ arr.
Proof.
  intros Hgas. unfold quickSort.
  destruct (quickSort_rec_spec gas gas [] arr [] arr 0 (len arr - 1))
    as (out & Hrun & Hs & Hp); try done; try len_lia.
  - by rewrite app_nil_r.
  - exists out. simpl in Hrun. rewrite app_nil_r in Hrun. done.
Qed.
End facts.
End QuickFacts.

(** * Linear and binary search *)

Module SearchFacts.
Import Java ArrayFacts SelectionFacts.

Section facts.
Context {A : Type} (key : A → Z).
Implicit Types (arr l pre rest : list A) (x y : A) (i j r target : Z).

(** Linear search returns the first index whose key is the target. *)
Lemma linear_loop_spec target rest :
  ∀ (n : nat) pre arr i,
    arr = pre ++ rest → i = len pre → (length rest < n)%nat →
    ∃ r, linear_loop key n arr target i = Done r
         ∧ ((r = -1 ∧ Forall (λ y, key y ≠ target) rest)
            ∨ (∃ la x lb, rest = la ++ x :: lb ∧ key x = target
                          ∧ Forall (λ y, key y ≠ target) la
                          ∧ r = len pre + len la)).
Proof.
  induction rest as [|x rest IH]; intros n pre arr i -> -> Hn;
    (destruct n as [|n]; [simpl in Hn; lia|]); cbn [linear_loop];
    case_ltb; try len_lia.
  - exists (-1). split; [done|]. left. split; [done|constructor].
  - rewrite (aget_at _ pre x rest) by side. ret_bind. case_eqb.
    + exists (len pre). split; [done|]. right.
      exists [], x, rest. split_and!; try done. len_lia.
    + simpl in Hn.
      destruct (IH n (pre ++ [x]) (pre ++ x :: rest) (len pre + 1))
        as (r & -> & Hr); [side..|].
      exists r. split; [done|].
      destruct Hr as [[-> Hall]|(la & y & lb & -> & Hy & Hla & ->)].
      * left. split; [done|]. by constructor.
      * right. exists (x :: la), y, lb. split_and!; try done.
        -- by constructor.
        -- len_lia.
Qed.

Lemma ssorted_lookup l :
  ssorted key l →
  ∀ (i j : nat) x y, (i ≤ j)%nat → l !! i = Some x → l !! j = Some y →
                     key x ≤ key y.
Proof.
  induction 1 as [|a l Hs IH Ha]; intros i j x y Hij Hx Hy; [done|].
  destruct i as [|i], j as [|j]; simpl in *; simplify_eq; try lia.
  - rewrite Forall_forall in Ha. apply (Ha y).
    by eapply list_elem_of_lookup_2.
  - apply (IH i j); [lia|done..].
Qed.

(** Binary search on an ordered array: it returns the index of a cell
    holding the target, or -1 when no cell of the array does. *)
Lemma binary_loop_spec target arr (n : nat) :
  ssorted key arr →
  ∀ left right,
    0 ≤ left → right < len arr →
    (Z.to_nat (right - left + 1) < n)%nat →
    (∀ (t : nat) x, arr !! t = Some x → key x = target →
                    left ≤ Z.of_nat t ≤ right) →
    ∃ r, binary_loop key n arr target left right = Done r
         ∧ ((r = -1 ∧ Forall (λ y, key y ≠ target) arr)
            ∨ (left ≤ r ≤ right
               ∧ ∃ x, arr !! Z.to_nat r = Some x ∧ key x = target)).
Proof.
  intros Hs. induction n as [|n IH]; intros left right Hl Hr Hn Hocc; [lia|].
  cbn [binary_loop]. case_leb.
  - cbv zeta. destruct (half_bounds (right - left)) as [-> Hhalf]; [lia|].
    set (mid := left + (right - left) `div` 2) in *.
    assert (Hmid : left ≤ mid ≤ right) by (unfold mid; lia).
    destruct (lookup_in_range arr mid) as [am Ham]; [lia|].
    rewrite (aget_lookup arr mid am) by (done || lia). ret_bind.
    case_eqb.
    + exists mid. split; [done|]. right. split; [done|]. by exists am.
    + case_ltb.
      * destruct (IH (mid + 1) right) as (r & -> & Hres); try lia.
        { intros t x Hx Hkx. specialize (Hocc t x Hx Hkx).
          destruct (decide (Z.of_nat t ≤ mid)); [|lia].
          pose proof (ssorted_lookup arr Hs t (Z.to_nat mid) x am
                        ltac:(lia) Hx Ham). lia. }
        exists r. split; [done|].
        destruct Hres as [?|[? ?]]; [by left|right]. split; [lia|done].
      * destruct (IH left (mid - 1)) as (r & -> & Hres); try lia.
        { intros t x Hx Hkx. specialize (Hocc t x Hx Hkx).
          destruct (decide (mid ≤ Z.of_nat t)); [|lia].
          pose proof (ssorted_lookup arr Hs (Z.to_nat mid) t am x
                        ltac:(lia) Ham Hx). lia. }
        exists r. split; [done|].
        destruct Hres as [?|[? ?]]; [by left|right]. split; [lia|done].
  - exists (-1). split; [done|]. left. split; [done|].
    apply Forall_forall. intros x [t Ht]%list_elem_of_lookup Hkx.
    specialize (Hocc t x Ht Hkx). lia.
Qed.

(** On an ordered array that holds the target, both searches return the
    index of a cell holding it; linear search returns the first such
    index. *)
Lemma searches_spec gas arr target :
  ssorted key arr →
  (∃ x, x ∈ arr ∧ key x = target) →
  (length arr < gas)%nat →
  ∃ la x lb (j : nat) y,
    arr = la ++ x :: lb ∧ key x = target
    ∧ Forall (λ z, key z ≠ target) la
    ∧ linearSearch key gas arr target = Done (len la)
    ∧ binarySearch key gas arr target = Done (Z.of_nat j)
    ∧ arr !! j = Some y ∧ key y = target.
Proof.
  intros Hs (x0 & Hin & Hk0) Hgas.
  destruct (linear_loop_spec target arr gas [] arr 0) as (r & Hlin & Hr);
    [done..|].
  destruct Hr as [[_ Hall]|(la & x & lb & -> & Hx & Hla & ->)].
  { rewrite Forall_forall in Hall. by destruct (Hall x0 Hin). }
  destruct (binary_loop_spec target (la ++ x :: lb) gas Hs 0
              (len (la ++ x :: lb) - 1)) as (r & Hbin & Hr).
  - done.
  - lia.
  - unfold len. lia.
  - intros t z Ht _. apply lookup_lt_Some in Ht. unfold len. lia.
  - destruct Hr as [[_ Hall]|(Hrange & y & Hy & Hky)].
    { rewrite Forall_forall in Hall. by destruct (Hall x0 Hin). }
    exists la, x, lb, (Z.to_nat r), y. split_and!; try done.
    unfold binarySearch. rewrite Hbin. f_equal. lia.
Qed.

(** Two cells holding the target make two occurrences. *)
Lemma single_occurrence la x lb (j : nat) y target :
  key x = target → Forall (λ z, key z ≠ target) la →
  (la ++ x :: lb) !! j = Some y → key y = target →
  (length la ≤ j)%nat
  ∧ (length (with_key key target (la ++ x :: lb)) = 1%nat → j = length la).
Proof.
  intros Hx Hla Hy Hky.
  assert (Hge : (length la ≤ j)%nat).
  { destruct (decide (length la ≤ j)%nat) as [|Hlt]; [done|].
    rewrite lookup_app_l in Hy by lia.
    rewrite Forall_forall in Hla.
    destruct (Hla y); [by eapply list_elem_of_lookup_2|done]. }
  split; [done|]. intros Hone.
  destruct (decide (j = length la)) as [|Hne]; [done|].
  rewrite lookup_app_r in Hy by lia.
  destruct (j - length la)%nat as [|k] eqn:Hk; [lia|]. simpl in Hy.
  apply list_elem_of_lookup_2 in Hy.
  unfold with_key in Hone. rewrite filter_app, filter_cons in Hone.
  rewrite decide_True in Hone by done.
  rewrite length_app in Hone. simpl in Hone.
  assert (Hin : y ∈ filter (λ z, key z = target) lb)
    by (by apply list_elem_of_filter).
  destruct (filter (λ z, key z = target) lb); [|simpl in Hone; lia].
  by apply not_elem_of_nil in Hin.
Qed.
End facts.
End SearchFacts.

(** * Claims about both containers *)

Section container_claims.

(** C4. Underflow leaves the container unchanged: [pop] and [peek] on an
    empty stack, [dequeue] and [front] on an empty queue throw the
    [runtime_error] of their underflow, and the state at the throw is the
    state before the call, so the size is still 0 and the same call fails
    again in the same way. *)
Theorem underflow_unchanged :
  (∀ (T : Type) (s : Stack.Stack T),
     Stack.size s = 0 →
     Stack.isEmpty s = true
     ∧ Stack.pop s
       = Throw (runtime_error "Stack Underflow: Cannot pop from empty stack") s
     ∧ Stack.peek s = Throw (runtime_error "Stack is empty: Cannot peek") s)
  ∧ (∀ (T : Type) (q : Queue.Queue T),
       Queue.reach q → Queue.size q = 0 →
       Queue.isEmpty q = true
       ∧ Queue.dequeue q
         = Throw (runtime_error
                    "Queue Underflow: Cannot dequeue from empty queue") q
       ∧ Queue.front q
         = Throw (runtime_error "Queue is empty: Cannot access front") q).
Proof.
  split.
  - intros T s Hsz.
    assert (He : Stack.isEmpty s = true).
    { unfold Stack.isEmpty, Stack.size in *. apply Z.eqb_eq. lia. }
    split; [done|]. split.
    + by apply StackFacts.pop_empty.
    + by apply StackFacts.peek_empty.
  - intros T q (ls & xs & Hrep)%QueueFacts.queue_reach_rep Hsz.
    assert (He : Queue.isEmpty q = true).
    { by apply (QueueFacts.rep_isEmpty q ls xs Hrep). }
    split; [done|]. split.
    + by apply QueueFacts.dequeue_empty.
    + by apply QueueFacts.front_empty.
Qed.

Lemma underflow_unchanged_witness :
  (∃ s : Stack.Stack Z,
     Stack.new 2 = inr s
     ∧ Stack.pop s
       = Throw (runtime_error "Stack Underflow: Cannot pop from empty stack") s
     ∧ Stack.peek s = Throw (runtime_error "Stack is empty: Cannot peek") s)
  ∧ Queue.dequeue (T:=Z) Queue.new
    = Throw (runtime_error "Queue Underflow: Cannot dequeue from empty queue")
        Queue.new
  ∧ Queue.front (T:=Z) Queue.new
    = Throw (runtime_error "Queue is empty: Cannot access front") Queue.new.
Proof.
  split.
  - eexists. split; [reflexivity|].
    apply (proj1 underflow_unchanged Z). reflexivity.
  - apply (proj2 underflow_unchanged Z Queue.new).
    + apply Queue.reach_new.
    + reflexivity.
Defined.
End container_claims.

(** * Claims about sorting and searching *)

Section sorting_claims.
Import Java ArrayFacts.
Import BubbleFacts SelectionFacts InsertionFacts MergeFacts QuickFacts.
Import SearchFacts.

(** C6. Each of the five sorts, on any array (the empty and the
    one-element arrays included), returns and leaves a permutation of its
    input in non-decreasing order. *)
Theorem sorts_correct (A : Type) (key : A → Z) (zero : A)
    (gas : nat) (arr : list A) :
  (length arr < gas)%nat →
  sorts key (bubbleSort key gas) arr
  ∧ sorts key (selectionSort key gas) arr
  ∧ sorts key (insertionSort key gas) arr
  ∧ sorts key (mergeSort key zero gas) arr
  ∧ sorts key (quickSort key gas) arr.
Proof.
  intros Hgas. unfold sorts. split_and!.
  - destruct (bubbleSort_spec key gas arr Hgas) as (out & ? & ? & [? _]).
    exists out. by rewrite <- ssorted_sorted.
  - destruct (selectionSort_spec key gas arr Hgas) as (out & ? & ? & ?).
    exists out. by rewrite <- ssorted_sorted.
  - destruct (insertionSort_spec key gas arr Hgas) as (out & ? & ? & [? _]).
    exists out. by rewrite <- ssorted_sorted.
  - destruct (mergeSort_spec key zero gas arr Hgas) as (out & ? & ? & [? _]).
    exists out. by rewrite <- ssorted_sorted.
  - destruct (quickSort_spec key gas arr Hgas) as (out & ? & ? & ?).
    exists out. by rewrite <- ssorted_sorted.
Qed.

Lemma sorts_correct_witness :
  sorts int_key (bubbleSort int_key 7) [5; 2; 9; 1; 5; 6]
  ∧ sorts int_key (selectionSort int_key 7) [5; 2; 9; 1; 5; 6]
  ∧ sorts int_key (insertionSort int_key 7) [5; 2; 9; 1; 5; 6]
  ∧ sorts int_key (mergeSort int_key 0 7) [5; 2; 9; 1; 5; 6]
  ∧ sorts int_key (quickSort int_key 7) [5; 2; 9; 1; 5; 6].
Proof. apply (sorts_correct Z int_key 0 7%nat [5; 2; 9; 1; 5; 6]). simpl. lia. Defined.

(** C7. Bubble sort, insertion sort and merge sort are stable: on any
    array, the elements of any one key come out in the order they came
    in. *)
Theorem stable_sorts (A : Type) (key : A → Z) (zero : A)
    (gas : nat) (arr : list A) :
  (length arr < gas)%nat →
  sorts_stably key (bubbleSort key gas) arr
  ∧ sorts_stably key (insertionSort key gas) arr
  ∧ sorts_stably key (mergeSort key zero gas) arr.
Proof.
  intros Hgas. unfold sorts_stably. split_and!.
  - destruct (bubbleSort_spec key gas arr Hgas) as (out & ? & ? & [_ ?]).
    by exists out.
  - destruct (insertionSort_spec key gas arr Hgas) as (out & ? & ? & [_ ?]).
    by exists out.
  - destruct (mergeSort_spec key zero gas arr Hgas) as (out & ? & ? & [_ ?]).
    by exists out.
Qed.

Lemma stable_sorts_witness :
  sorts_stably fst (bubbleSort fst 5) [(2, 1); (1, 1); (2, 2); (1, 2)]
  ∧ sorts_stably fst (insertionSort fst 5) [(2, 1); (1, 1); (2, 2); (1, 2)]
  ∧ sorts_stably fst (mergeSort fst (0, 0) 5)
      [(2, 1); (1, 1); (2, 2); (1, 2)].
Proof.
  apply (stable_sorts (Z * Z) fst (0, 0) 5%nat [(2, 1); (1, 1); (2, 2); (1, 2)]).
  simpl. lia.
Defined.

(** Selection sort and quick sort are not stable: here the two elements
    of key 2 come out exchanged. *)
Example selectionSort_not_stable :
  selectionSort fst 4 [(2, 1); (2, 2); (1, 1)]
  = Done [(1, 1); (2, 2); (2, 1)].
Proof. reflexivity. Qed.

Example quickSort_not_stable :
  quickSort fst 4 [(2, 1); (2, 2); (1, 1)] = Done [(1, 1); (2, 2); (2, 1)].
Proof. reflexivity. Qed.

(** C8, as the code has it.  On an ordered array that holds the target,
    linear search returns the first index of a cell holding it and binary
    search returns the index of some cell holding it; the two indices are
    equal when the target occurs once.  Binary search on [2,4,6,8,10]
    returns 2 for the target 6 and -1 for the target 5. *)
Theorem searches_agree_on_single_occurrence :
  (∀ (A : Type) (key : A → Z) (gas : nat) (arr : list A) (target : Z),
     (length arr < gas)%nat → sorted key arr →
     (∃ x, x ∈ arr ∧ key x = target) →
     ∃ (i j : nat) xi xj,
       linearSearch key gas arr target = Done (Z.of_nat i)
       ∧ binarySearch key gas arr target = Done (Z.of_nat j)
       ∧ arr !! i = Some xi ∧ key xi = target
       ∧ arr !! j = Some xj ∧ key xj = target
       ∧ (∀ (t : nat) y, arr !! t = Some y → key y = target → (i ≤ t)%nat)
       ∧ (length (with_key key target arr) = 1%nat → i = j))
  ∧ (∀ gas : nat, (5 < gas)%nat →
       binarySearch int_key gas [2; 4; 6; 8; 10] 6 = Done 2
       ∧ binarySearch int_key gas [2; 4; 6; 8; 10] 5 = Done (-1)).
Proof.
  split.
  - intros A key gas arr target Hgas Hs%ssorted_sorted Hin.
    destruct (searches_spec key gas arr target Hs Hin Hgas)
      as (la & x & lb & j & y & -> & Hx & Hla & Hlin & Hbin & Hy & Hky).
    destruct (single_occurrence key la x lb j y target Hx Hla Hy Hky)
      as [Hge Hone].
    exists (length la), j, x, y. split_and!; try done.
    + by apply list_lookup_middle.
    + intros t z Hz Hkz.
      by destruct (single_occurrence key la x lb t z target Hx Hla Hz Hkz).
    + intros H1. symmetry. by apply Hone.
  - intros gas Hgas. do 6 (destruct gas as [|gas]; [lia|]).
    split; reflexivity.
Qed.

Lemma searches_agree_on_single_occurrence_witness :
  ∃ (i j : nat) xi xj,
    linearSearch int_key 6 [2; 4; 6; 8; 10] 8 = Done (Z.of_nat i)
    ∧ binarySearch int_key 6 [2; 4; 6; 8; 10] 8 = Done (Z.of_nat j)
    ∧ [2; 4; 6; 8; 10] !! i = Some xi ∧ int_key xi = 8
    ∧ [2; 4; 6; 8; 10] !! j = Some xj ∧ int_key xj = 8
    ∧ (∀ (t : nat) y, [2; 4; 6; 8; 10] !! t = Some y → int_key y = 8 →
                      (i ≤ t)%nat)
    ∧ (length (with_key int_key 8 [2; 4; 6; 8; 10]) = 1%nat → i = j).
Proof.
  apply (proj1 searches_agree_on_single_occurrence Z int_key 6%nat
           [2; 4; 6; 8; 10] 8).
  - simpl. lia.
  - repeat constructor; unfold key_le, int_key; lia.
  - exists 8. split; [|reflexivity]. set_solver.
Defined.

(** C8 fails as stated: on the ordered array [2,2,2], which holds the
    target 2, linear search returns 0 and binary search returns 1. *)
Lemma searches_disagree_on_duplicates :
  sorted int_key [2; 2; 2]
  ∧ 2 ∈ [2; 2; 2]
  ∧ linearSearch int_key 4 [2; 2; 2] 2 = Done 0
  ∧ binarySearch int_key 4 [2; 2; 2] 2 = Done 1
  ∧ ¬ (∃ i, linearSearch int_key 4 [2; 2; 2] 2 = Done i
            ∧ binarySearch int_key 4 [2; 2; 2] 2 = Done i).
Proof.
  split_and!.
  - repeat constructor; unfold key_le, int_key; lia.
  - set_solver.
  - reflexivity.
  - reflexivity.
  - intros (i & Hl & Hb). vm_compute in Hl, Hb. congruence.
Qed.

#[local] Instance int_key_antisymm : AntiSymm (=) (key_le int_key).
Proof. intros x y. unfold key_le, int_key. lia. Qed.

(** C10. The five sorts are extensionally equal on arrays of integers:
    run on copies of one array, they all return and leave the same
    contents. *)
Theorem sorts_agree (gas : nat) (arr : list Z) :
  (length arr < gas)%nat →
  ∃ out,
    bubbleSort int_key gas arr = Done out
    ∧ selectionSort int_key gas arr = Done out
    ∧ insertionSort int_key gas arr = Done out
    ∧ mergeSort int_key 0 gas arr = Done out
    ∧ quickSort int_key gas arr = Done out.
Proof.
  intros Hgas.
  destruct (bubbleSort_spec int_key gas arr Hgas) as (o1 & H1 & S1 & [P1 _]).
  destruct (selectionSort_spec int_key gas arr Hgas) as (o2 & H2 & S2 & P2).
  destruct (insertionSort_spec int_key gas arr Hgas)
    as (o3 & H3 & S3 & [P3 _]).
  destruct (mergeSort_spec int_key 0 gas arr Hgas) as (o4 & H4 & S4 & [P4 _]).
  destruct (quickSort_spec int_key gas arr Hgas) as (o5 & H5 & S5 & P5).
  assert (o2 = o1) as ->
    by (apply (StronglySorted_unique (key_le int_key)); try done;
        by rewrite P1, P2).
  assert (o3 = o1) as ->
    by (apply (StronglySorted_unique (key_le int_key)); try done;
        by rewrite P1, P3).
  assert (o4 = o1) as ->
    by (apply (StronglySorted_unique (key_le int_key)); try done;
        by rewrite P1, P4).
  assert (o5 = o1) as ->
    by (apply (StronglySorted_unique (key_le int_key)); try done;
        by rewrite P1, P5).
  by exists o1.
Qed.

Lemma sorts_agree_witness :
  ∃ out,
    bubbleSort int_key 7 [5; 2; 9; 1; 5; 6] = Done out
    ∧ selectionSort int_key 7 [5; 2; 9; 1; 5; 6] = Done out
    ∧ insertionSort int_key 7 [5; 2; 9; 1; 5; 6] = Done out
    ∧ mergeSort int_key 0 7 [5; 2; 9; 1; 5; 6] = Done out
    ∧ quickSort int_key 7 [5; 2; 9; 1; 5; 6] = Done out.
Proof. apply (sorts_agree 7%nat [5; 2; 9; 1; 5; 6]). simpl. lia. Defined.
End sorting_claims.

(** * More on the stack: size, interleaved runs, capacity, display *)

Module StackMoreFacts.
Import Stack StackFacts StackDisplay IntFacts.

Section facts.
Context {T : Type}.
Implicit Types (s : Stack T) (xs ys : list T) (v : T).

Lemma rep_size_isEmpty s xs :
  rep s xs →
  size s = Z.of_nat (length xs)
  ∧ (isEmpty s = true ↔ xs = [])
  ∧ 0 ≤ size s ≤ capacity s.
Proof.
  intros (Hcap & Hlen & Hsz & Hle & Hc). split; [done|]. split; [|lia].
  unfold isEmpty, size in *. rewrite Z.eqb_eq. destruct xs; simpl in *.
  - split; [done|lia].
  - split; [lia|done].
Qed.

Lemma rep_contents s xs : rep s xs → contents s = Some <$> xs.
Proof. by intros (_ & _ & _ & _ & ?). Qed.

Lemma push_ok_inv s xs v s' :
  rep s xs → push v s = Ok () s' →
  rep s' (xs ++ [v])
  ∧ capacity s' = (if size s =? capacity s then 2 * capacity s
                   else capacity s).
Proof.
  intros Hrep Hpush.
  destruct (decide (size s < capacity s ∨ 2 * capacity s ≤ INT_MAX))
    as [Hroom|Hno].
  - destruct (push_spec s xs v Hrep Hroom) as (s1 & Hs1 & Hrep1 & Hc1).
    assert (s1 = s') as -> by congruence. by split.
  - rewrite (push_full_overflow s xs v Hrep) in Hpush; [done| |lia].
    destruct Hrep as (? & ? & ? & ? & ?). lia.
Qed.

Lemma display_loop_spec xs :
  ∀ rest : list (option T),
    Z.of_nat (length xs) ≤ INT_MAX →
    display_loop (length xs) (Z.of_nat (length xs) - 1)
      ((Some <$> xs) ++ rest)
    = Some (sep_by (reverse xs)).
Proof.
  induction xs as [|y ys IH] using rev_ind; intros rest Hmax; [done|].
  rewrite length_app, Nat.add_1_r in *. cbn [display_loop].
  rewrite fmap_app, <- (assoc_L (++)). simpl.
  replace (Z.of_nat (S (length ys)) - 1) with (Z.of_nat (length ys)) by lia.
  rewrite cell_read_app. cbn [mbind option_bind].
  rewrite in_int_true by (unfold INT_MIN, INT_MAX in *; lia).
  rewrite IH by lia. cbn [mbind option_bind]. rewrite reverse_snoc.
  destruct ys as [|z ys _] using rev_ind; [done|].
  rewrite length_app, Nat.add_1_r. rewrite reverse_snoc. simpl.
  destruct (Z.ltb_spec 0 (Z.of_nat (S (length ys)))); [done|lia].
Qed.

Lemma display_spec s xs :
  rep s xs →
  display s
  = Some (match xs with
          | [] => [Str "Stack is empty"; Endl]
          | _ :: _ => Str "Stack (top to bottom): "
                        :: sep_by (reverse xs) ++ [Endl]
          end).
Proof.
  intros Hrep. pose proof (rep_arr _ _ Hrep) as Harr.
  destruct (rep_size_isEmpty s xs Hrep) as (Hsz & He & Hle).
  destruct Hrep as (Hcap & _). unfold display.
  destruct xs as [|x xs].
  - rewrite (proj2 He eq_refl). done.
  - destruct (isEmpty s) eqn:Hemp; [by pose proof (proj1 He eq_refl)|].
    unfold size in *. rewrite Harr.
    replace (Z.to_nat (topIndex s + 1)) with (length (x :: xs)) by lia.
    replace (topIndex s) with (Z.of_nat (length (x :: xs)) - 1) at 1 by lia.
    rewrite display_loop_spec by lia. done.
Qed.
End facts.
End StackMoreFacts.

Section stack_extras.
Import Stack StackFacts StackMoreFacts StackDisplay IntFacts.

(** A stack of capacity 2 after [push(7)]. *)
Lemma reach_one : reach stack_7 [7].
Proof.
  apply (reach_push {| arr := [None; None]; topIndex := -1; capacity := 2 |}
           [] 7 stack_7); [|reflexivity].
  apply (reach_new 2); [unfold INT_MAX; lia|reflexivity].
Qed.

(** X1. In every state of a stack, [size()] is the number of elements
    pushed and not yet popped, [isEmpty()] holds exactly when there is
    none, and the size stays between 0 and the capacity. *)
Theorem stack_size_counts (T : Type) (s : Stack T) (xs : list T) :
  reach s xs →
  size s = Z.of_nat (length xs)
  ∧ (isEmpty s = true ↔ xs = [])
  ∧ 0 ≤ size s ≤ capacity s.
Proof. intros Hr%stack_reach_rep. by apply rep_size_isEmpty. Qed.

Lemma stack_size_counts_witness :
  size stack_7 = Z.of_nat (length [7])
  ∧ (isEmpty stack_7 = true ↔ [7] = [])
  ∧ 0 ≤ size stack_7 ≤ capacity stack_7.
Proof. apply (stack_size_counts Z stack_7 [7]). exact reach_one. Defined.

(** X2. LIFO under any interleaving of pushes and pops: whenever the
    elements pushed and not yet popped are [ys] followed by [y], [peek]
    returns [y] and changes nothing, and [pop] returns [y] and leaves a
    stack holding [ys], with the same capacity. *)
Theorem stack_top_is_last_pushed (T : Type) (s : Stack T)
    (ys : list T) (y : T) :
  reach s (ys ++ [y]) →
  peek s = Ok y s
  ∧ ∃ s', pop s = Ok y s' ∧ reach s' ys ∧ contents s' = Some <$> ys
          ∧ capacity s' = capacity s.
Proof.
  intros Hr. pose proof (stack_reach_rep _ _ Hr) as Hrep.
  split; [by apply (peek_spec s ys y)|].
  destruct (pop_spec s ys y Hrep) as (s' & Hpop & Hrep' & Hcap).
  exists s'. split_and!; try done.
  - rewrite <- (removelast_last ys y). by apply (reach_pop s _ y).
  - by apply rep_contents.
Qed.

Lemma stack_top_is_last_pushed_witness :
  peek stack_7 = Ok 7 stack_7
  ∧ ∃ s', pop stack_7 = Ok 7 s'
          ∧ reach s' [] ∧ contents s' = Some <$> []
          ∧ capacity s' = capacity stack_7.
Proof. apply (stack_top_is_last_pushed Z stack_7 [] 7). exact reach_one. Defined.

(** X3. The growth policy of [push], in every state of a stack: it
    returns exactly when there is a free cell or the doubled capacity is
    an [int]; it then appends the value to the contents, and the capacity
    is doubled if the stack was full and unchanged otherwise. *)
Theorem push_capacity_policy (T : Type) (s : Stack T) (xs : list T) (v : T) :
  reach s xs →
  ((size s < capacity s ∨ 2 * capacity s ≤ INT_MAX)
   ↔ ∃ s', push v s = Ok () s')
  ∧ (∀ s', push v s = Ok () s' →
       capacity s' = (if size s =? capacity s then 2 * capacity s
                      else capacity s)
       ∧ contents s' = contents s ++ [Some v]
       ∧ size s' = size s + 1).
Proof.
  intros Hrep%stack_reach_rep. split.
  - split.
    + intros Hroom. destruct (push_spec s xs v Hrep Hroom) as (s' & ? & _).
      by exists s'.
    + intros [s' Hpush].
      destruct (decide (size s < capacity s ∨ 2 * capacity s ≤ INT_MAX))
        as [|Hno]; [done|].
      rewrite (push_full_overflow s xs v Hrep) in Hpush; [done| |lia].
      destruct Hrep as (? & ? & ? & ? & ?). lia.
  - intros s' Hpush.
    destruct (push_ok_inv s xs v s' Hrep Hpush) as [Hrep' Hcap].
    split; [done|].
    rewrite (rep_contents _ _ Hrep), (rep_contents _ _ Hrep'), fmap_app.
    split; [done|].
    destruct (rep_size_isEmpty _ _ Hrep) as (-> & _).
    destruct (rep_size_isEmpty _ _ Hrep') as (-> & _).
    rewrite length_app. simpl. lia.
Qed.

Lemma push_capacity_policy_witness :
  ((size stack_7 < capacity stack_7 ∨ 2 * capacity stack_7 ≤ INT_MAX)
   ↔ ∃ s', push 8 stack_7 = Ok () s')
  ∧ (∀ s', push 8 stack_7 = Ok () s' →
       capacity s' = (if size stack_7 =? capacity stack_7
                      then 2 * capacity stack_7 else capacity stack_7)
       ∧ contents s' = contents stack_7 ++ [Some 8]
       ∧ size s' = size stack_7 + 1).
Proof. apply (push_capacity_policy Z stack_7 [7] 8). exact reach_one. Defined.

(** X4. A push followed by a pop is a round trip: in every state of a
    stack, after a [push(v)] that returns, [peek] and [pop] return [v],
    and the pop leaves the contents and the size as they were before the
    push. *)
Theorem push_then_pop (T : Type) (s s1 : Stack T) (xs : list T) (v : T) :
  reach s xs → push v s = Ok () s1 →
  peek s1 = Ok v s1
  ∧ ∃ s2, pop s1 = Ok v s2
          ∧ contents s2 = contents s ∧ size s2 = size s.
Proof.
  intros Hrep%stack_reach_rep Hpush.
  destruct (push_ok_inv s xs v s1 Hrep Hpush) as [Hrep1 _].
  split; [by apply (peek_spec s1 xs v)|].
  destruct (pop_spec s1 xs v Hrep1) as (s2 & Hpop & Hrep2 & _).
  exists s2. split; [done|].
  rewrite (rep_contents _ _ Hrep), (rep_contents _ _ Hrep2).
  split; [done|].
  destruct (rep_size_isEmpty _ _ Hrep) as (-> & _).
  by destruct (rep_size_isEmpty _ _ Hrep2) as (-> & _).
Qed.

Lemma push_then_pop_witness :
  ∃ s1, push 8 stack_7 = Ok () s1
        ∧ peek s1 = Ok 8 s1
        ∧ ∃ s2, pop s1 = Ok 8 s2
                ∧ contents s2 = contents stack_7 ∧ size s2 = size stack_7.
Proof.
  eexists. split; [reflexivity|].
  apply (push_then_pop Z stack_7 _ [7] 8); [exact reach_one|reflexivity].
Defined.

(** X5. A stack created with capacity 0 cannot take a push: the
    constructor accepts 0, and the first [push] of any value doubles the
    capacity to 0 and writes outside of the empty buffer. *)
Theorem first_push_on_capacity_zero (T : Type) (v : T) :
  ∃ s : Stack T,
    new 0 = inr s ∧ isEmpty s = true ∧ capacity s = 0 ∧ push v s = UB.
Proof. eexists. repeat (split; [reflexivity|]). reflexivity. Qed.

(** X6. In every state of a stack, [display] writes the elements from
    the top down to the bottom, with [" <- "] between two of them, after
    its header; on an empty stack it writes ["Stack is empty"]. *)
Theorem stack_display_top_to_bottom (T : Type) (s : Stack T) (xs : list T) :
  reach s xs →
  display s
  = Some (match xs with
          | [] => [Str "Stack is empty"; Endl]
          | _ :: _ => Str "Stack (top to bottom): "
                        :: sep_by (reverse xs) ++ [Endl]
          end).
Proof. intros Hrep%stack_reach_rep. by apply display_spec. Qed.

Lemma stack_display_top_to_bottom_witness :
  display stack_7 = Some [Str "Stack (top to bottom): "; Val 7; Endl].
Proof. apply (stack_display_top_to_bottom Z stack_7 [7]). exact reach_one. Defined.

(** X7. [push] on a full stack whose capacity is above [INT_MAX / 2] has
    undefined behaviour: [capacity *= 2] overflows [int]. *)
Theorem push_overflows_int (T : Type) (s : Stack T) (v : T) :
  topIndex s = capacity s - 1 → INT_MAX < 2 * capacity s →
  push v s = UB.
Proof.
  intros Hfull Hbig. unfold push.
  destruct (in_int (capacity s - 1)); [|done].
  rewrite Hfull, Z.eqb_refl. unfold resize.
  rewrite in_int_above by lia. done.
Qed.

Lemma push_overflows_int_witness : push 1 stack_full_2_30 = UB.
Proof.
  apply (push_overflows_int Z stack_full_2_30 1); [reflexivity|].
  unfold INT_MAX. cbn [capacity stack_full_2_30]. lia.
Defined.
End stack_extras.

(** * More on the queue: elements, heap, destructor, display *)

Module QueueMoreFacts.
Import Queue QueueFacts QueueMore IntFacts.

Section facts.
Context {T : Type}.
Implicit Types (q : Queue T) (ls : list loc) (xs : list T) (v : T).

Lemma walk_rep q ls xs :
  rep q ls xs →
  ∀ (n i : nat), (i + n = length xs)%nat →
                 walk (heap q) n (ls !! i) = Some (drop i xs).
Proof.
  intros (Hnd & Hlen & Hcnt & Hmax & Hf & Hr & Hdom & Hch).
  induction n as [|n IH]; intros i Hi.
  - rewrite (proj2 (lookup_ge_None ls i)) by lia.
    rewrite drop_ge by lia. done.
  - destruct (lookup_lt_is_Some_2 ls i) as [l Hl]; [lia|].
    destruct (lookup_lt_is_Some_2 xs i) as [x Hx]; [lia|].
    rewrite Hl. simpl. rewrite (Hch i l x Hl Hx). simpl.
    rewrite (IH (S i)) by lia. simpl.
    by rewrite (drop_S xs x i Hx).
Qed.

Lemma elements_rep q ls xs : rep q ls xs → elements q = Some xs.
Proof.
  intros Hrep. pose proof (walk_rep q ls xs Hrep) as Hwalk.
  destruct Hrep as (Hnd & Hlen & Hcnt & Hmax & Hf & Hr & Hdom & Hch).
  unfold elements. rewrite Hf, Hcnt, Nat2Z.id, head_lookup.
  by rewrite (Hwalk (length xs) 0%nat).
Qed.

Lemma display_loop_rep q ls xs :
  rep q ls xs →
  ∀ (n i : nat), (i ≤ length xs < i + n)%nat →
                 display_loop n (heap q) (ls !! i)
                 = Finished (sep_by (drop i xs)).
Proof.
  intros (Hnd & Hlen & Hcnt & Hmax & Hf & Hr & Hdom & Hch).
  induction n as [|n IH]; intros i Hi.
  - lia.
  - cbn [display_loop].
    destruct (ls !! i) as [l|] eqn:Hl.
    + destruct (lookup_lt_is_Some_2 xs i) as [x Hx];
        [apply lookup_lt_Some in Hl; lia|].
      rewrite (Hch i l x Hl Hx). simpl.
      rewrite (IH (S i)) by (apply lookup_lt_Some in Hx; lia).
      rewrite (drop_S xs x i Hx). simpl.
      destruct (ls !! S i) as [l'|] eqn:Hl'.
      * destruct (lookup_lt_is_Some_2 xs (S i)) as [x' Hx'];
          [apply lookup_lt_Some in Hl'; lia|].
        by rewrite (drop_S xs x' (S i) Hx').
      * rewrite drop_ge; [done|]. apply lookup_ge_None in Hl'. lia.
    + rewrite drop_ge; [done|]. apply lookup_ge_None in Hl. lia.
Qed.

Lemma rep_nil_state q : rep q [] [] →
  heap q = ∅ ∧ frontPtr q = None ∧ rearPtr q = None ∧ count q = 0.
Proof.
  intros (Hnd & Hlen & Hcnt & Hmax & Hf & Hr & Hdom & Hch).
  split_and!; try done. by apply dom_empty_inv_L.
Qed.

Lemma destroy_rep (n : nat) :
  ∀ q ls xs, rep q ls xs → (length xs < n)%nat →
             ∃ q', destroy n q = Finished q' ∧ rep q' [] [].
Proof.
  induction n as [|n IH]; intros q ls xs Hrep Hn; [lia|].
  cbn [destroy]. destruct ls as [|l ls], xs as [|x xs];
    try (destruct Hrep as (_ & Hlen & _); done).
  - rewrite (proj2 (rep_isEmpty q [] [] Hrep))
      by (by destruct Hrep as (_ & _ & ? & _)).
    by exists q.
  - destruct (isEmpty q) eqn:He.
    { apply (rep_isEmpty q _ _ Hrep) in He.
      destruct Hrep as (_ & _ & Hcnt & _). simpl in Hcnt. lia. }
    destruct (dequeue_spec q l ls x xs Hrep) as (q1 & -> & Hrep1).
    apply (IH q1 ls xs Hrep1). simpl in Hn. lia.
Qed.

Lemma rep_heap q ls xs :
  rep q ls xs →
  Z.of_nat (base.size (heap q)) = count q
  ∧ (∀ l nd l', heap q !! l = Some nd → next nd = Some l' →
                is_Some (heap q !! l'))
  ∧ (∀ l, frontPtr q = Some l ∨ rearPtr q = Some l → is_Some (heap q !! l))
  ∧ (∀ r nd, rearPtr q = Some r → heap q !! r = Some nd → next nd = None).
Proof.
  intros (Hnd & Hlen & Hcnt & Hmax & Hf & Hr & Hdom & Hch).
  assert (Hin : ∀ l, l ∈ ls → is_Some (heap q !! l)).
  { intros l Hl. apply elem_of_dom. rewrite Hdom.
    by apply elem_of_list_to_set. }
  assert (Hnode : ∀ l nd, heap q !! l = Some nd →
                          ∃ i, ls !! i = Some l ∧ next nd = ls !! S i).
  { intros l nd Hl.
    assert (l ∈ ls) as [i Hi]%list_elem_of_lookup.
    { apply (elem_of_list_to_set (C:=gset loc)). rewrite <- Hdom.
      apply elem_of_dom. eauto. }
    destruct (lookup_lt_is_Some_2 xs i) as [x Hx];
      [apply lookup_lt_Some in Hi; lia|].
    rewrite (Hch i l x Hi Hx) in Hl. simplify_eq. eauto. }
  split_and!.
  - rewrite <- size_dom, Hdom, size_list_to_set by done. lia.
  - intros l nd l' Hl Hnext. destruct (Hnode l nd Hl) as (i & _ & Hi).
    apply Hin. rewrite Hnext in Hi. by eapply list_elem_of_lookup_2.
  - intros l [Hl|Hl]; apply Hin.
    + rewrite Hf in Hl. by apply head_Some_elem_of.
    + rewrite Hr in Hl. by apply last_Some_elem_of.
  - intros r nd Hrear Hnd'. destruct (Hnode r nd Hnd') as (i & Hi & ->).
    rewrite Hr, last_lookup in Hrear.
    pose proof (NoDup_lookup _ _ _ _ Hnd Hi Hrear) as ->.
    apply lookup_ge_None. destruct ls; simpl; lia.
Qed.
End facts.
End QueueMoreFacts.

Section queue_extras.
Import Queue QueueFacts QueueMore QueueMoreFacts IntFacts.

Lemma reach_queue_12 :
  reach queue_1 ∧ reach queue_12 ∧ elements queue_12 = Some [1; 2].
Proof.
  assert (H1 : enqueue 1 new = Ok () queue_1) by (vm_compute; reflexivity).
  assert (H2 : enqueue 2 queue_1 = Ok () queue_12)
    by (vm_compute; reflexivity).
  assert (R1 : reach queue_1) by (eapply reach_enqueue; [constructor|exact H1]).
  split; [done|]. split; [by eapply reach_enqueue|].
  vm_compute. reflexivity.
Qed.

(** X8. In every state of a queue, the chain of nodes from the front
    pointer ends after [count] nodes; [size()] is the number of elements
    it holds and [isEmpty()] holds exactly when there is none. *)
Theorem queue_size_counts (T : Type) (q : Queue T) :
  reach q →
  ∃ xs, elements q = Some xs
        ∧ size q = Z.of_nat (length xs)
        ∧ (isEmpty q = true ↔ xs = []).
Proof.
  intros (ls & xs & Hrep)%queue_reach_rep. exists xs.
  split; [by eapply elements_rep|].
  pose proof (rep_isEmpty q ls xs Hrep) as He.
  destruct Hrep as (_ & _ & Hcnt & _). split; [done|].
  rewrite He, Hcnt. destruct xs; simpl; split; intros; try done; lia.
Qed.

Lemma queue_size_counts_witness :
  ∃ xs, elements queue_12 = Some xs
        ∧ size queue_12 = Z.of_nat (length xs)
        ∧ (isEmpty queue_12 = true ↔ xs = []).
Proof. apply (queue_size_counts Z queue_12), reach_queue_12. Defined.

(** X9. [enqueue] under any interleaving: in every state of a queue it
    returns unless the count is at [INT_MAX], and it then adds the value
    after the elements already there and the size grows by one. *)
Theorem enqueue_appends (T : Type) (q : Queue T) (xs : list T) (v : T) :
  reach q → elements q = Some xs →
  (count q < INT_MAX ↔ ∃ q', enqueue v q = Ok () q')
  ∧ (∀ q', enqueue v q = Ok () q' →
           elements q' = Some (xs ++ [v]) ∧ size q' = size q + 1).
Proof.
  intros (ls & xs0 & Hrep)%queue_reach_rep Hel.
  rewrite (elements_rep q ls xs0 Hrep) in Hel. injection Hel as ->.
  destruct (enqueue_cases q ls xs v Hrep)
    as [(Hlt & q1 & He & Hrep1)|[Hmax Hub]].
  - split; [split; [by exists q1|done]|].
    intros q' Hq'. assert (q' = q1) as -> by congruence.
    split; [by eapply elements_rep|].
    destruct Hrep as (_ & _ & Hcnt & _).
    destruct Hrep1 as (_ & _ & Hcnt1 & _). unfold size.
    rewrite Hcnt, Hcnt1, length_app. simpl. lia.
  - split; [split; [lia|]|]; [intros [q' Hq']|intros q' Hq']; congruence.
Qed.

Lemma enqueue_appends_witness :
  (count queue_12 < INT_MAX ↔ ∃ q', enqueue 3 queue_12 = Ok () q')
  ∧ (∀ q', enqueue 3 queue_12 = Ok () q' →
           elements q' = Some ([1; 2] ++ [3]) ∧ size q' = size queue_12 + 1).
Proof. apply (enqueue_appends Z queue_12 [1; 2] 3); apply reach_queue_12. Defined.

(** X10. [front] and [dequeue] under any interleaving: in every state
    of a queue that holds [x] followed by [xs], [front] returns [x] and
    changes nothing, and [dequeue] returns [x] and leaves a queue holding
    [xs], with the size one less. *)
Theorem dequeue_takes_front (T : Type) (q : Queue T) (x : T) (xs : list T) :
  reach q → elements q = Some (x :: xs) →
  front q = Ok x q
  ∧ ∃ q', dequeue q = Ok x q' ∧ reach q'
          ∧ elements q' = Some xs ∧ size q' = size q - 1.
Proof.
  intros Hreach Hel.
  destruct (queue_reach_rep q Hreach) as (ls & xs0 & Hrep).
  rewrite (elements_rep q ls xs0 Hrep) in Hel. injection Hel as ->.
  destruct ls as [|l ls]; [by destruct Hrep as (_ & ? & _)|].
  destruct (dequeue_spec q l ls x xs Hrep) as (q' & Hd & Hrep').
  split.
  - destruct Hrep as (_ & _ & _ & _ & Hf & _ & _ & Hch).
    unfold front, isEmpty. rewrite Hf. simpl.
    by rewrite (Hch 0%nat l x).
  - exists q'. split; [done|]. split; [by eapply reach_dequeue|].
    split; [by eapply elements_rep|].
    destruct Hrep as (_ & _ & Hcnt & _).
    destruct Hrep' as (_ & _ & Hcnt' & _). unfold size.
    rewrite Hcnt, Hcnt'. simpl length. lia.
Qed.

Lemma dequeue_takes_front_witness :
  front queue_12 = Ok 1 queue_12
  ∧ ∃ q', dequeue queue_12 = Ok 1 q' ∧ reach q'
          ∧ elements q' = Some [2] ∧ size q' = size queue_12 - 1.
Proof. apply (dequeue_takes_front Z queue_12 1 [2]); apply reach_queue_12. Defined.

(** X11. Heap accounting, in every state of a queue: the heap holds
    exactly [count] nodes (each [enqueue] has allocated one, each
    [dequeue] freed one); the front pointer, the rear pointer and every
    next-link point to a node that is still allocated; and the rear node
    has no successor. *)
Theorem queue_heap_accounting (T : Type) (q : Queue T) :
  reach q →
  Z.of_nat (base.size (heap q)) = count q
  ∧ (∀ l nd l', heap q !! l = Some nd → next nd = Some l' →
                is_Some (heap q !! l'))
  ∧ (∀ l, frontPtr q = Some l ∨ rearPtr q = Some l → is_Some (heap q !! l))
  ∧ (∀ r nd, rearPtr q = Some r → heap q !! r = Some nd → next nd = None).
Proof. intros (ls & xs & Hrep)%queue_reach_rep. by eapply rep_heap. Qed.

Lemma queue_heap_accounting_witness :
  Z.of_nat (base.size (heap queue_12)) = count queue_12
  ∧ (∀ l nd l', heap queue_12 !! l = Some nd → next nd = Some l' →
                is_Some (heap queue_12 !! l'))
  ∧ (∀ l, frontPtr queue_12 = Some l ∨ rearPtr queue_12 = Some l →
          is_Some (heap queue_12 !! l))
  ∧ (∀ r nd, rearPtr queue_12 = Some r → heap queue_12 !! r = Some nd →
             next nd = None).
Proof. apply (queue_heap_accounting Z queue_12), reach_queue_12. Defined.

(** X12. The destructor frees everything: from every state of a queue,
    its loop ends (within [count] dequeues), no exception leaves it, and
    it leaves no node on the heap. *)
Theorem queue_destructor_frees_all (T : Type) (q : Queue T) (n : nat) :
  reach q → (Z.to_nat (count q) < n)%nat →
  ∃ q', destroy n q = Finished q'
        ∧ heap q' = ∅ ∧ frontPtr q' = None ∧ rearPtr q' = None
        ∧ count q' = 0.
Proof.
  intros (ls & xs & Hrep)%queue_reach_rep Hn.
  destruct (destroy_rep n q ls xs Hrep) as (q' & Hd & Hrep').
  { destruct Hrep as (_ & _ & Hcnt & _). lia. }
  exists q'. split; [done|]. by apply rep_nil_state.
Qed.

Lemma queue_destructor_frees_all_witness :
  ∃ q', destroy 3 queue_12 = Finished q'
        ∧ heap q' = ∅ ∧ frontPtr q' = None ∧ rearPtr q' = None
        ∧ count q' = 0.
Proof.
  apply (queue_destructor_frees_all Z queue_12 3%nat);
    [apply reach_queue_12|vm_compute; lia].
Defined.

(** X13. In every state of a queue, [display] follows the chain to its
    end and writes the elements from the front to the rear, with
    [" <- "] between two of them, after its header; on an empty queue it
    writes ["Queue is empty"]. *)
Theorem queue_display_front_to_rear (T : Type) (q : Queue T)
    (xs : list T) (gas : nat) :
  reach q → elements q = Some xs → (length xs < gas)%nat →
  display gas q
  = Finished (match xs with
              | [] => [Str "Queue is empty"; Endl]
              | _ :: _ => Str "Queue (front to rear): " :: sep_by xs ++ [Endl]
              end).
Proof.
  intros (ls & xs0 & Hrep)%queue_reach_rep Hel Hgas.
  rewrite (elements_rep q ls xs0 Hrep) in Hel. injection Hel as ->.
  pose proof (display_loop_rep q ls xs Hrep gas 0%nat) as Hloop.
  pose proof (rep_isEmpty q ls xs Hrep) as He.
  destruct Hrep as (_ & Hlen & Hcnt & _ & Hf & _).
  unfold display. destruct xs as [|x xs].
  - rewrite (proj2 He) by done. done.
  - destruct (isEmpty q) eqn:Hemp.
    { pose proof (proj1 He eq_refl). simpl in Hcnt. lia. }
    rewrite Hf, head_lookup, Hloop by (simpl in *; lia). done.
Qed.

Lemma queue_display_front_to_rear_witness :
  display 3 queue_12
  = Finished [Str "Queue (front to rear): "; Val 1; Str " <- "; Val 2; Endl].
Proof.
  apply (queue_display_front_to_rear Z queue_12 [1; 2] 3%nat);
    [apply reach_queue_12..|simpl; lia].
Defined.
End queue_extras.

(** * More on the array methods: [swap], the searches on any array,
    stable sorts, the helpers of merge sort and quick sort *)

Module ArrayMoreFacts.
Import Java ArrayFacts SelectionFacts SearchFacts BubbleFacts.

Section facts.
Context {A : Type} (key : A → Z).
Implicit Types (arr l : list A) (x y : A) (i j : Z).

Lemma aset_in_range arr i v :
  0 ≤ i < len arr → aset arr i v = Done (<[Z.to_nat i := v]> arr).
Proof.
  intros Hi. unfold aset.
  destruct (Z.leb_spec 0 i), (Z.ltb_spec i (len arr)); simpl; try done; lia.
Qed.

(** [swap] on two cells of the array, as two updates. *)
Lemma swap_inserts arr i j ai aj :
  0 ≤ i → 0 ≤ j →
  arr !! Z.to_nat i = Some ai → arr !! Z.to_nat j = Some aj →
  swap arr i j
  = Done (<[Z.to_nat j := ai]> (<[Z.to_nat i := aj]> arr)).
Proof.
  intros Hi Hj Hai Haj. unfold swap.
  rewrite (aget_lookup arr i ai), (aget_lookup arr j aj) by done. ret_bind.
  pose proof (lookup_lt_Some _ _ _ Hai). pose proof (lookup_lt_Some _ _ _ Haj).
  rewrite aset_in_range by (unfold len; lia). ret_bind.
  rewrite aset_in_range by (unfold len; rewrite length_insert; lia). done.
Qed.

(** An array seen around two of its cells. *)
Lemma split_two arr (i j : nat) ai aj :
  (i < j)%nat → arr !! i = Some ai → arr !! j = Some aj →
  ∃ l1 l2 l3, arr = l1 ++ ai :: l2 ++ aj :: l3
              ∧ length l1 = i ∧ length l2 = (j - S i)%nat.
Proof.
  intros Hij Hai Haj.
  pose proof (take_drop_middle arr i ai Hai) as Hsplit.
  assert (Hk : drop (S i) arr !! (j - S i)%nat = Some aj).
  { rewrite lookup_drop. rewrite <- Haj. f_equal. lia. }
  pose proof (take_drop_middle _ _ _ Hk) as Hsplit2.
  exists (take i arr), (take (j - S i) (drop (S i) arr)),
    (drop (S (j - S i)) (drop (S i) arr)).
  split; [by rewrite Hsplit2, Hsplit|].
  rewrite !length_take. apply lookup_lt_Some in Hai, Hk. lia.
Qed.

Lemma swap_comm arr i j :
  0 ≤ i < len arr → 0 ≤ j < len arr → swap arr i j = swap arr j i.
Proof.
  intros Hi Hj.
  destruct (lookup_in_range arr i Hi) as [ai Hai].
  destruct (lookup_in_range arr j Hj) as [aj Haj].
  rewrite (swap_inserts arr i j ai aj), (swap_inserts arr j i aj ai)
    by (done || lia).
  destruct (decide (i = j)) as [->|Hne]; [by simplify_eq|].
  by rewrite list_insert_insert_ne by lia.
Qed.

(** [swap] on two cells of the array, the first one to the left. *)
Lemma swap_lt arr i j :
  0 ≤ i → i < j → j < len arr →
  ∃ arr', swap arr i j = Done arr' ∧ arr' ≡ₚ arr
          ∧ swap arr' i j = Done arr ∧ len arr' = len arr.
Proof.
  intros Hi Hij Hj.
  destruct (lookup_in_range arr i) as [ai Hai]; [lia|].
  destruct (lookup_in_range arr j) as [aj Haj]; [lia|].
  destruct (split_two arr (Z.to_nat i) (Z.to_nat j) ai aj)
    as (l1 & l2 & l3 & -> & Hl1 & Hl2); [lia|done..|].
  exists (l1 ++ aj :: l2 ++ ai :: l3).
  rewrite (swap_at _ l1 ai l2 aj l3), (swap_at _ l1 aj l2 ai l3)
    by (done || unfold len; lia).
  split_and!; try done.
  - apply Permutation_app_head.
    rewrite <- !Permutation_middle. apply perm_swap.
  - unfold len. rewrite !length_app. simpl. rewrite !length_app. simpl. lia.
Qed.

(** Two ordered lists that keep the elements of each key in the same
    order are equal. *)
Lemma stable_sorted_unique l1 :
  ∀ l2, ssorted key l1 → ssorted key l2 →
        (∀ k, with_key key k l2 = with_key key k l1) → l1 = l2.
Proof.
  unfold with_key.
  induction l1 as [|x l1 IH]; intros l2 Hs1 Hs2 Hst.
  - destruct l2 as [|y l2]; [done|].
    specialize (Hst (key y)). rewrite filter_cons in Hst.
    by case_decide.
  - destruct l2 as [|y l2].
    { specialize (Hst (key x)). rewrite filter_cons in Hst.
      by case_decide. }
    apply StronglySorted_cons in Hs1 as [Hx Hs1].
    apply StronglySorted_cons in Hs2 as [Hy Hs2].
    rewrite Forall_forall in Hx, Hy.
    assert (Hk : key x = key y).
    { destruct (decide (key x = key y)) as [|Hne]; [done|].
      pose proof (Hst (key x)) as H1. pose proof (Hst (key y)) as H2.
      rewrite !filter_cons in H1, H2.
      repeat case_decide; try congruence.
      assert (x ∈ l2).
      { eapply (list_elem_of_filter (λ z, key z = key x)).
        rewrite H1. by left. }
      assert (y ∈ l1).
      { eapply (list_elem_of_filter (λ z, key z = key y)).
        rewrite <- H2. by left. }
      pose proof (Hy x ltac:(done)). pose proof (Hx y ltac:(done)).
      unfold key_le in *. lia. }
    pose proof (Hst (key x)) as H1.
    rewrite !filter_cons in H1. repeat case_decide; try congruence.
    injection H1 as Hyx H1. subst y. f_equal. apply IH; try done.
    intros k. destruct (decide (key x = k)) as [<-|Hne]; [done|].
    specialize (Hst k). rewrite !filter_cons in Hst.
    by repeat case_decide; try congruence.
Qed.

(** A pass of bubble sort over an ordered segment exchanges nothing. *)
Lemma bubble_swaps_sorted rest :
  ∀ x, ssorted key (x :: rest) →
       bubble_swaps key x rest = false ∧ bubble key x rest = x :: rest.
Proof.
  induction rest as [|y rest IH]; intros x Hs; [done|].
  apply StronglySorted_cons in Hs as [Hx Hs].
  apply Forall_cons in Hx as [Hxy _]. unfold key_le in Hxy.
  simpl. case_gtb; [lia|]. destruct (IH y Hs) as [-> ->]. done.
Qed.

(** Binary search on any array, ordered or not: it returns, and a result
    other than -1 is the index of a cell holding the target. *)
Lemma binary_loop_any target arr (n : nat) :
  ∀ left right,
    0 ≤ left → right < len arr →
    (Z.to_nat (right - left + 1) < n)%nat →
    ∃ r, binary_loop key n arr target left right = Done r
         ∧ (r = -1
            ∨ (left ≤ r ≤ right
               ∧ ∃ x, arr !! Z.to_nat r = Some x ∧ key x = target)).
Proof.
  induction n as [|n IH]; intros left right Hl Hr Hn; [lia|].
  cbn [binary_loop]. case_leb.
  - cbv zeta. destruct (half_bounds (right - left)) as [-> Hhalf]; [lia|].
    set (mid := left + (right - left) `div` 2) in *.
    assert (Hmid : left ≤ mid ≤ right) by (unfold mid; lia).
    destruct (lookup_in_range arr mid) as [am Ham]; [lia|].
    rewrite (aget_lookup arr mid am) by (done || lia). ret_bind.
    case_eqb.
    + exists mid. split; [done|]. right. split; [done|]. by exists am.
    + case_ltb.
      * destruct (IH (mid + 1) right) as (r & -> & Hres); try lia.
        exists r. split; [done|].
        destruct Hres as [?|[? ?]]; [by left|right]. split; [lia|done].
      * destruct (IH left (mid - 1)) as (r & -> & Hres); try lia.
        exists r. split; [done|].
        destruct Hres as [?|[? ?]]; [by left|right]. split; [lia|done].
  - exists (-1). split; [done|]. by left.
Qed.

Lemma swap_same_index arr i : 0 ≤ i < len arr → swap arr i i = Done arr.
Proof.
  intros Hi. destruct (lookup_in_range arr i Hi) as [ai Hai].
  apply (swap_self arr (take (Z.to_nat i) arr) ai (drop (S (Z.to_nat i)) arr)).
  - symmetry. by apply take_drop_middle.
  - unfold len. rewrite length_take. apply lookup_lt_Some in Hai. lia.
  - unfold len. rewrite length_take. apply lookup_lt_Some in Hai. lia.
Qed.

(** On an ordered array the inner loop of selection sort keeps the index
    it starts with. *)
Lemma selection_inner_sorted arr i (n : nat) :
  ssorted key arr →
  ∀ j, 0 ≤ i < j → j ≤ len arr → (Z.to_nat (len arr - j) < n)%nat →
       selection_inner key n arr j i = Done i.
Proof.
  intros Hs. induction n as [|n IH]; intros j Hij Hj Hn; [lia|].
  cbn [selection_inner]. case_ltb; [|done].
  destruct (lookup_in_range arr j) as [aj Haj]; [lia|].
  destruct (lookup_in_range arr i) as [ai Hai]; [lia|].
  rewrite (aget_lookup arr j aj), (aget_lookup arr i ai) by (done || lia).
  ret_bind.
  pose proof (ssorted_lookup key arr Hs (Z.to_nat i) (Z.to_nat j) ai aj
                ltac:(lia) Hai Haj).
  case_ltb; [lia|]. apply IH; lia.
Qed.

Lemma selection_outer_sorted gas arr (n : nat) :
  ssorted key arr → (length arr < gas)%nat →
  ∀ i, 0 ≤ i → (Z.to_nat (len arr - i) ≤ n)%nat → (0 < n)%nat →
       selection_outer key gas n arr i = Done arr.
Proof.
  intros Hs Hgas. induction n as [|n IH]; intros i Hi Hn Hpos; [lia|].
  cbn [selection_outer]. case_ltb; [|done].
  rewrite (selection_inner_sorted arr i gas Hs) by (unfold len in *; lia).
  ret_bind. rewrite swap_same_index by lia. ret_bind.
  apply IH; lia.
Qed.

(** On an ordered array the partition loop exchanges every cell with
    itself. *)
Lemma partition_loop_sorted arr pivot high (n : nat) :
  (∀ (t : nat) x, Z.of_nat t < high → arr !! t = Some x →
                  key x ≤ key pivot) →
  high ≤ len arr →
  ∀ j, 0 ≤ j ≤ high → (Z.to_nat (high - j) < n)%nat →
       partition_loop key n arr pivot high (j - 1) j = Done (arr, high - 1).
Proof.
  intros Hle Hhigh. induction n as [|n IH]; intros j Hj Hn; [lia|].
  cbn [partition_loop]. case_ltb.
  - destruct (lookup_in_range arr j) as [aj Haj]; [lia|].
    rewrite (aget_lookup arr j aj) by (done || lia). ret_bind.
    pose proof (Hle (Z.to_nat j) aj ltac:(lia) Haj).
    case_leb; [|lia].
    replace (j - 1 + 1) with j by lia.
    rewrite swap_same_index by lia. ret_bind.
    replace j with (j + 1 - 1) at 1 by lia. apply IH; lia.
  - do 2 f_equal. lia.
Qed.

Lemma partition_sorted gas arr low high :
  ssorted key arr → 0 ≤ low ≤ high → high < len arr →
  (Z.to_nat (high - low) < gas)%nat →
  partition key gas arr low high = Done (arr, high).
Proof.
  intros Hs Hlow Hhigh Hgas. unfold partition.
  destruct (lookup_in_range arr high) as [pivot Hp]; [lia|].
  rewrite (aget_lookup arr high pivot) by (done || lia). ret_bind.
  rewrite partition_loop_sorted; try lia.
  - ret_bind. replace (high - 1 + 1) with high by lia.
    rewrite swap_same_index by lia. done.
  - intros t x Ht Hx.
    apply (ssorted_lookup key arr Hs t (Z.to_nat high) x pivot); [lia|done..].
Qed.

(** Quick sort on an ordered array: each call recurses on the range
    without its last cell, so the calls nest as deep as the range is
    long. *)
Lemma quickSort_rec_sorted gas arr (n : nat) :
  ssorted key arr → (length arr < gas)%nat →
  ∀ low high, 0 ≤ low → high < len arr → low ≤ high + 1 →
    quickSort_rec key gas n arr low high
    = if decide (Z.to_nat (high - low + 1) ≤ n ∧ 0 < n)%nat then Done arr
      else OutOfFuel.
Proof.
  intros Hs Hgas. induction n as [|n IH]; intros low high Hlow Hhigh Hlh.
  - rewrite decide_False by lia. done.
  - cbn [quickSort_rec]. case_ltb.
    + rewrite partition_sorted by (done || unfold len in *; lia). ret_bind.
      rewrite (IH low (high - 1)) by lia.
      destruct (decide (Z.to_nat (high - 1 - low + 1) ≤ n ∧ 0 < n)%nat)
        as [[? ?]|Hno].
      * ret_bind. rewrite (IH (high + 1) high) by lia.
        rewrite decide_True by lia. rewrite decide_True by lia. done.
      * ret_bind. rewrite decide_False; [done|]. lia.
    + rewrite decide_True by lia. done.
Qed.
End facts.
End ArrayMoreFacts.

Section array_extras.
Import Java ArrayFacts SelectionFacts SearchFacts BubbleFacts.
Import InsertionFacts MergeFacts QuickFacts ArrayMoreFacts.

(** X14. [swap] on two valid indices exchanges the two cells and leaves
    the others as they are; the result is a permutation of the array, and
    swapping again restores it. *)
Theorem swap_exchanges (A : Type) (arr : list A) (i j : Z) :
  0 ≤ i < len arr → 0 ≤ j < len arr →
  ∃ arr' ai aj,
    arr !! Z.to_nat i = Some ai ∧ arr !! Z.to_nat j = Some aj
    ∧ swap arr i j = Done arr'
    ∧ arr' = <[Z.to_nat j := ai]> (<[Z.to_nat i := aj]> arr)
    ∧ arr' ≡ₚ arr
    ∧ swap arr' i j = Done arr.
Proof.
  intros Hi Hj.
  destruct (lookup_in_range arr i Hi) as [ai Hai].
  destruct (lookup_in_range arr j Hj) as [aj Haj].
  pose proof (swap_inserts arr i j ai aj ltac:(lia) ltac:(lia) Hai Haj)
    as Hins.
  assert (Hcases : ∃ arr', swap arr i j = Done arr' ∧ arr' ≡ₚ arr
                           ∧ swap arr' i j = Done arr).
  { destruct (Z.lt_trichotomy i j) as [Hij|[->|Hji]].
    - destruct (swap_lt arr i j) as (arr' & ? & ? & ? & _); try lia.
      by exists arr'.
    - exists arr.
      rewrite (swap_self arr (take (Z.to_nat j) arr) ai
                 (drop (S (Z.to_nat j)) arr) j j); try done.
      + symmetry. by apply take_drop_middle.
      + unfold len. rewrite length_take. apply lookup_lt_Some in Hai. lia.
      + unfold len. rewrite length_take. apply lookup_lt_Some in Hai. lia.
    - destruct (swap_lt arr j i) as (arr' & Hs & Hp & Hs' & Hlen); try lia.
      exists arr'. rewrite (swap_comm arr i j), Hs by done.
      rewrite (swap_comm arr' i j), Hs' by lia. done. }
  destruct Hcases as (arr' & Hs & Hp & Hs').
  exists arr', ai, aj. split_and!; try done. congruence.
Qed.

Lemma swap_exchanges_witness :
  ∃ arr' ai aj,
    [10; 20; 30] !! Z.to_nat 2 = Some ai ∧ [10; 20; 30] !! Z.to_nat 0 = Some aj
    ∧ swap [10; 20; 30] 2 0 = Done arr'
    ∧ arr' = <[Z.to_nat 0 := ai]> (<[Z.to_nat 2 := aj]> [10; 20; 30])
    ∧ arr' ≡ₚ [10; 20; 30]
    ∧ swap arr' 2 0 = Done [10; 20; 30].
Proof. apply (swap_exchanges Z [10; 20; 30] 2 0); vm_compute; done. Defined.

(** X15. [swap] with an index outside of the array throws
    [ArrayIndexOutOfBounds]; no array is returned. *)
Theorem swap_out_of_bounds (A : Type) (arr : list A) (i j : Z) :
  ¬ (0 ≤ i < len arr) ∨ ¬ (0 ≤ j < len arr) →
  swap arr i j = Raise ArrayIndexOutOfBounds.
Proof.
  intros Hout. unfold swap.
  destruct (decide (0 ≤ i < len arr)) as [Hi|Hi].
  - destruct (lookup_in_range arr i Hi) as [ai Hai].
    rewrite (aget_lookup arr i ai) by (done || lia). ret_bind.
    destruct Hout as [?|Hj]; [done|]. rewrite (aget_out arr j) by done. done.
  - rewrite (aget_out arr i) by done. done.
Qed.

Lemma swap_out_of_bounds_witness :
  swap [10; 20; 30] 0 3 = Raise ArrayIndexOutOfBounds.
Proof.
  apply (swap_out_of_bounds Z [10; 20; 30] 0 3). right. vm_compute.
  intros [_ H]. discriminate H.
Defined.

(** X16. Linear search on any array, ordered or not: it returns -1
    exactly when no cell holds the target, and otherwise the index of the
    first cell that does. *)
Theorem linearSearch_first_match (A : Type) (key : A → Z) (gas : nat)
    (arr : list A) (target : Z) :
  (length arr < gas)%nat →
  ∃ r, linearSearch key gas arr target = Done r
       ∧ (r = -1 ↔ Forall (λ y, key y ≠ target) arr)
       ∧ (r ≠ -1 →
          ∃ x, 0 ≤ r < len arr ∧ arr !! Z.to_nat r = Some x ∧ key x = target
               ∧ ∀ (t : nat) y, arr !! t = Some y → key y = target →
                                (Z.to_nat r ≤ t)%nat).
Proof.
  intros Hgas.
  destruct (linear_loop_spec key target arr gas [] arr 0) as (r & Hlin & Hr);
    [done..|].
  exists r. split; [done|].
  destruct Hr as [[-> Hall]|(la & x & lb & -> & Hx & Hla & ->)].
  - split; [done|]. by intros [].
  - assert (Hr : len (@nil A) + len la = Z.of_nat (length la))
      by (unfold len; simpl; lia).
    rewrite Hr. split.
    + split; [lia|]. intros Hall. rewrite Forall_forall in Hall.
      destruct (Hall x); [set_solver|done].
    + intros _. exists x. rewrite Nat2Z.id. split_and!; try done.
      * lia.
      * unfold len. rewrite length_app. simpl. lia.
      * by apply list_lookup_middle.
      * intros t y Hy Hky.
        by destruct (single_occurrence key la x lb t y target Hx Hla Hy Hky).
Qed.

Lemma linearSearch_first_match_witness :
  ∃ r, linearSearch int_key 5 [7; 3; 9; 3] 3 = Done r
       ∧ (r = -1 ↔ Forall (λ y, int_key y ≠ 3) [7; 3; 9; 3])
       ∧ (r ≠ -1 →
          ∃ x, 0 ≤ r < len [7; 3; 9; 3]
               ∧ [7; 3; 9; 3] !! Z.to_nat r = Some x ∧ int_key x = 3
               ∧ ∀ (t : nat) y, [7; 3; 9; 3] !! t = Some y → int_key y = 3 →
                                (Z.to_nat r ≤ t)%nat).
Proof.
  apply (linearSearch_first_match Z int_key 5%nat [7; 3; 9; 3] 3). simpl. lia.
Defined.

(** X17. Binary search on any array, ordered or not: it returns, it never
    reads outside of the array, and a result other than -1 is the index
    of a cell holding the target. *)
Theorem binarySearch_sound_on_any_array (A : Type) (key : A → Z) (gas : nat)
    (arr : list A) (target : Z) :
  (length arr < gas)%nat →
  ∃ r, binarySearch key gas arr target = Done r
       ∧ (r = -1
          ∨ (0 ≤ r < len arr
             ∧ ∃ x, arr !! Z.to_nat r = Some x ∧ key x = target)).
Proof.
  intros Hgas. unfold binarySearch.
  destruct (binary_loop_any key target arr gas 0 (len arr - 1))
    as (r & Hr & Hres); try (unfold len; lia).
  exists r. split; [done|].
  destruct Hres as [?|[? ?]]; [by left|right]. split; [lia|done].
Qed.

Lemma binarySearch_sound_on_any_array_witness :
  ∃ r, binarySearch int_key 5 [9; 1; 8; 2] 8 = Done r
       ∧ (r = -1
          ∨ (0 ≤ r < len [9; 1; 8; 2]
             ∧ ∃ x, [9; 1; 8; 2] !! Z.to_nat r = Some x ∧ int_key x = 8)).
Proof.
  apply (binarySearch_sound_on_any_array Z int_key 5%nat [9; 1; 8; 2] 8).
  simpl. lia.
Defined.

(** X18. Binary search on an ordered array is complete: it returns -1
    exactly when no cell holds the target. *)
Theorem binarySearch_not_found_iff_absent (A : Type) (key : A → Z)
    (gas : nat) (arr : list A) (target : Z) :
  (length arr < gas)%nat → sorted key arr →
  binarySearch key gas arr target = Done (-1)
  ↔ Forall (λ y, key y ≠ target) arr.
Proof.
  intros Hgas Hs%ssorted_sorted. unfold binarySearch.
  destruct (binary_loop_spec key target arr gas Hs 0 (len arr - 1))
    as (r & Hr & Hres); try (unfold len; lia).
  { intros t x Ht _. apply lookup_lt_Some in Ht. unfold len. lia. }
  rewrite Hr. destruct Hres as [[-> Hall]|(Hrange & x & Hx & Hkx)].
  - done.
  - split; [intros [= ->]; lia|].
    intros Hall. rewrite Forall_forall in Hall.
    destruct (Hall x); [by eapply list_elem_of_lookup_2|done].
Qed.

Lemma binarySearch_not_found_iff_absent_witness :
  binarySearch int_key 6 [2; 4; 6; 8; 10] 7 = Done (-1)
  ↔ Forall (λ y, int_key y ≠ 7) [2; 4; 6; 8; 10].
Proof.
  apply (binarySearch_not_found_iff_absent Z int_key 6%nat [2; 4; 6; 8; 10] 7).
  - simpl. lia.
  - repeat constructor; unfold key_le, int_key; lia.
Defined.

(** X19. The three stable sorts agree on every array of keyed elements,
    equal keys included: bubble sort, insertion sort and merge sort
    return the same array. *)
Theorem stable_sorts_agree (A : Type) (key : A → Z) (zero : A)
    (gas : nat) (arr : list A) :
  (length arr < gas)%nat →
  ∃ out, bubbleSort key gas arr = Done out
         ∧ insertionSort key gas arr = Done out
         ∧ mergeSort key zero gas arr = Done out.
Proof.
  intros Hgas.
  destruct (bubbleSort_spec key gas arr Hgas) as (o1 & H1 & S1 & [_ T1]).
  destruct (insertionSort_spec key gas arr Hgas) as (o2 & H2 & S2 & [_ T2]).
  destruct (mergeSort_spec key zero gas arr Hgas) as (o3 & H3 & S3 & [_ T3]).
  assert (o1 = o2) as <-.
  { apply (stable_sorted_unique key); try done. intros k.
    by rewrite (T1 k), (T2 k). }
  assert (o1 = o3) as <-.
  { apply (stable_sorted_unique key); try done. intros k.
    by rewrite (T1 k), (T3 k). }
  by exists o1.
Qed.

Lemma stable_sorts_agree_witness :
  ∃ out, bubbleSort fst 5 [(2, 1); (1, 1); (2, 2); (1, 2)] = Done out
         ∧ insertionSort fst 5 [(2, 1); (1, 1); (2, 2); (1, 2)] = Done out
         ∧ mergeSort fst (0, 0) 5 [(2, 1); (1, 1); (2, 2); (1, 2)] = Done out.
Proof.
  apply (stable_sorts_agree (Z * Z) fst (0, 0) 5%nat
           [(2, 1); (1, 1); (2, 2); (1, 2)]).
  simpl. lia.
Defined.

(** X20. [partition] on the range [low .. high] of an array: the pivot,
    which is the last element of the range, ends at the index returned;
    the elements before it in the range are not above it and the elements
    after it are above it; the range is permuted and the cells outside of
    it are not changed. *)
Theorem partition_postcondition (A : Type) (key : A → Z) (gas : nat)
    (a seg c : list A) (pivot : A) :
  (length seg < gas)%nat →
  ∃ small big,
    partition key gas (a ++ seg ++ pivot :: c) (len a) (len a + len seg)
    = Done (a ++ small ++ pivot :: big ++ c, len a + len small)
    ∧ small ++ big ≡ₚ seg
    ∧ Forall (λ y, key y ≤ key pivot) small
    ∧ Forall (λ y, key pivot < key y) big.
Proof. intros Hgas. by apply partition_spec. Qed.

Lemma partition_postcondition_witness :
  ∃ small big,
    partition int_key 4 ([1] ++ [7; 3; 9] ++ 5 :: [0]) (len [1])
      (len [1] + len [7; 3; 9])
    = Done ([1] ++ small ++ 5 :: big ++ [0], len [1] + len small)
    ∧ small ++ big ≡ₚ [7; 3; 9]
    ∧ Forall (λ y, int_key y ≤ int_key 5) small
    ∧ Forall (λ y, int_key 5 < int_key y) big.
Proof.
  apply (partition_postcondition Z int_key 4%nat [1] [7; 3; 9] [0] 5).
  simpl. lia.
Defined.

(** X21. [merge] on two adjacent ordered runs [left .. mid] and
    [mid+1 .. right]: it leaves the two runs merged in order, elements of
    equal key from the left run first, and the cells outside of
    [left .. right] are not changed. *)
Theorem merge_postcondition (A : Type) (key : A → Z) (zero : A) (gas : nat)
    (a la lb c : list A) :
  (length la + length lb < gas)%nat →
  sorted key la → sorted key lb →
  ∃ m,
    merge key zero gas (a ++ la ++ lb ++ c) (len a) (len a + len la - 1)
      (len a + len la + len lb - 1)
    = Done (a ++ m ++ c)
    ∧ sorted key m ∧ m ≡ₚ la ++ lb ∧ stable key (la ++ lb) m.
Proof.
  intros Hgas Ha%ssorted_sorted Hb%ssorted_sorted.
  exists (merge_lists key la lb).
  split; [by apply merge_spec|].
  split; [by apply ssorted_sorted, merge_lists_ssorted|].
  by apply merge_lists_sperm.
Qed.

Lemma merge_postcondition_witness :
  ∃ m,
    merge fst (0, 0) 5 ([(9, 9)] ++ [(1, 1); (3, 1)] ++ [(1, 2); (2, 2)] ++ [])
      (len [(9, 9)]) (len [(9, 9)] + len [(1, 1); (3, 1)] - 1)
      (len [(9, 9)] + len [(1, 1); (3, 1)] + len [(1, 2); (2, 2)] - 1)
    = Done ([(9, 9)] ++ m ++ [])
    ∧ sorted fst m ∧ m ≡ₚ [(1, 1); (3, 1)] ++ [(1, 2); (2, 2)]
    ∧ stable fst ([(1, 1); (3, 1)] ++ [(1, 2); (2, 2)]) m.
Proof.
  apply (merge_postcondition (Z * Z) fst (0, 0) 5%nat [(9, 9)]
           [(1, 1); (3, 1)] [(1, 2); (2, 2)] []).
  - simpl. lia.
  - repeat constructor; unfold key_le; simpl; lia.
  - repeat constructor; unfold key_le; simpl; lia.
Defined.

(** X22. The recursive methods sort a range and nothing else:
    [mergeSort(arr, left, right)] and [quickSort(arr, low, high)] leave
    the cells [left .. right] a permutation of what they held, in
    non-decreasing order, and do not change the cells outside. *)
Theorem range_sorts_are_local (A : Type) (key : A → Z) (zero : A)
    (gas : nat) (a seg c : list A) :
  (length seg < gas)%nat →
  (∃ out, mergeSort_rec key zero gas gas (a ++ seg ++ c) (len a)
            (len a + len seg - 1)
          = Done (a ++ out ++ c)
          ∧ sorted key out ∧ out ≡ₚ seg)
  ∧ (∃ out, quickSort_rec key gas gas (a ++ seg ++ c) (len a)
              (len a + len seg - 1)
            = Done (a ++ out ++ c)
            ∧ sorted key out ∧ out ≡ₚ seg).
Proof.
  intros Hgas. split.
  - destruct (mergeSort_rec_spec key zero gas gas a seg c (a ++ seg ++ c)
                (len a) (len a + len seg - 1))
      as (out & ? & ? & [? _]); try done.
    exists out. by rewrite <- ssorted_sorted.
  - destruct (quickSort_rec_spec key gas gas a seg c (a ++ seg ++ c)
                (len a) (len a + len seg - 1))
      as (out & ? & ? & ?); try done.
    exists out. by rewrite <- ssorted_sorted.
Qed.

Lemma range_sorts_are_local_witness :
  (∃ out, mergeSort_rec int_key 0 4 4 ([9] ++ [3; 1; 2] ++ [0]) (len [9])
            (len [9] + len [3; 1; 2] - 1)
          = Done ([9] ++ out ++ [0])
          ∧ sorted int_key out ∧ out ≡ₚ [3; 1; 2])
  ∧ (∃ out, quickSort_rec int_key 4 4 ([9] ++ [3; 1; 2] ++ [0]) (len [9])
              (len [9] + len [3; 1; 2] - 1)
            = Done ([9] ++ out ++ [0])
            ∧ sorted int_key out ∧ out ≡ₚ [3; 1; 2]).
Proof.
  apply (range_sorts_are_local Z int_key 0 4%nat [9] [3; 1; 2] [0]).
  simpl. lia.
Defined.

(** X23. An array that is already in order is left exactly as it is by
    each of the five sorts, elements of equal key included; so sorting a
    second time changes nothing. *)
Theorem sorted_input_unchanged (A : Type) (key : A → Z) (zero : A)
    (gas : nat) (arr : list A) :
  (length arr < gas)%nat → sorted key arr →
  bubbleSort key gas arr = Done arr
  ∧ selectionSort key gas arr = Done arr
  ∧ insertionSort key gas arr = Done arr
  ∧ mergeSort key zero gas arr = Done arr
  ∧ quickSort key gas arr = Done arr.
Proof.
  intros Hgas Hs%ssorted_sorted.
  destruct (bubbleSort_spec key gas arr Hgas) as (o1 & H1 & S1 & [_ T1]).
  destruct (insertionSort_spec key gas arr Hgas) as (o3 & H3 & S3 & [_ T3]).
  destruct (mergeSort_spec key zero gas arr Hgas) as (o4 & H4 & S4 & [_ T4]).
  assert (arr = o1) as <- by (by apply (stable_sorted_unique key)).
  assert (arr = o3) as <- by (by apply (stable_sorted_unique key)).
  assert (arr = o4) as <- by (by apply (stable_sorted_unique key)).
  split_and!; try done.
  - unfold selectionSort.
    apply selection_outer_sorted; try done; unfold len; lia.
  - unfold quickSort.
    rewrite quickSort_rec_sorted by (done || unfold len; lia).
    rewrite decide_True; [done|]. unfold len. lia.
Qed.

Lemma sorted_input_unchanged_witness :
  bubbleSort fst 4 [(1, 2); (1, 1); (2, 0)] = Done [(1, 2); (1, 1); (2, 0)]
  ∧ selectionSort fst 4 [(1, 2); (1, 1); (2, 0)]
    = Done [(1, 2); (1, 1); (2, 0)]
  ∧ insertionSort fst 4 [(1, 2); (1, 1); (2, 0)]
    = Done [(1, 2); (1, 1); (2, 0)]
  ∧ mergeSort fst (0, 0) 4 [(1, 2); (1, 1); (2, 0)]
    = Done [(1, 2); (1, 1); (2, 0)]
  ∧ quickSort fst 4 [(1, 2); (1, 1); (2, 0)] = Done [(1, 2); (1, 1); (2, 0)].
Proof.
  apply (sorted_input_unchanged (Z * Z) fst (0, 0) 4%nat
           [(1, 2); (1, 1); (2, 0)]).
  - simpl. lia.
  - repeat constructor; unfold key_le; simpl; lia.
Defined.

(** X24. The early exit of bubble sort: on an array that is already in
    order the outer loop ends in its first iteration, after one pass
    without exchange. *)
Theorem bubbleSort_one_pass_on_sorted (A : Type) (key : A → Z)
    (gas : nat) (arr : list A) :
  (length arr < gas)%nat → sorted key arr →
  bubble_outer key gas 1 arr 0 = Done arr.
Proof.
  intros Hgas Hs%ssorted_sorted. cbn [bubble_outer]. case_ltb; [|done].
  destruct arr as [|x rest]; [done|].
  pose proof (bubble_inner_spec key rest gas [] x [] false) as Hin.
  rewrite app_nil_r in Hin. simpl app in Hin.
  change (len []) with 0 in Hin. rewrite Hin by (simpl in Hgas; lia).
  ret_bind. destruct (bubble_swaps_sorted key rest x Hs) as [-> ->].
  simpl. by rewrite app_nil_r.
Qed.

Lemma bubbleSort_one_pass_on_sorted_witness :
  bubble_outer int_key 5 1 [1; 2; 2; 7] 0 = Done [1; 2; 2; 7].
Proof.
  apply (bubbleSort_one_pass_on_sorted Z int_key 5%nat [1; 2; 2; 7]).
  - simpl. lia.
  - repeat constructor; unfold key_le, int_key; lia.
Defined.


End array_extras.
